(** * pycamb: a shallow embedding of [src/pycamb/pycamb.py]

    The wrapper replaces every file of the CAMB executable by a named pipe.
    This development embeds, function by function,
    - the parameter dictionary handling of [pycamb.__call__] (merge, strip,
      output plan),
    - the text written by [writeparams] and the parser behind [_read_ini],
    - the reader loop [readoutputs],
    - the thread / process / FIFO interplay of [pycamb.__call__] as a
      labelled step relation,
    - the finite difference of [pycamb.derivative].

    Python dictionaries are stdpp [gmap]s, Python exceptions are the
    constructors of [exn], and a computation that may raise returns [res]. *)

From Stdlib Require Import String Ascii List ZArith QArith Qcanon Lia.
From stdpp Require Import gmap strings list fin_maps pretty.

Local Open Scope string_scope.
Local Open Scope list_scope.

(** ** Exceptions and results *)

Inductive exn : Type :=
  | KeyError (key : option string)
  | TypeError
  | IndexError
  | ValueError
  | OSError (path : string)
  | CalledProcessError (returncode : Z) (output : string)
  | MissingSectionHeaderError (lineno : nat)
  | ParsingError (linenos : list nat)
  | NoSectionError (section : string).

Inductive res (A : Type) : Type :=
  | Ok (a : A)
  | Raise (e : exn).
Arguments Ok {A} a.
Arguments Raise {A} e.

Definition rbind {A B : Type} (m : res A) (f : A → res B) : res B :=
  match m with
  | Ok a => f a
  | Raise e => Raise e
  end.

Notation "x ←r m ; k" := (rbind m (fun x => k))
  (at level 60, m at next level, right associativity).

(** [d[k]] on a dictionary: the value, or [KeyError]. A key is a string
    or, in [result] dictionaries, possibly Python's [None]. *)
Definition getitem {V : Type} (d : gmap string V) (k : string) : res V :=
  match d !! k with
  | Some v => Ok v
  | None => Raise (KeyError (Some k))
  end.

Definition getitem_key {V : Type} (d : gmap (option string) V)
    (k : option string) : res V :=
  match d !! k with
  | Some v => Ok v
  | None => Raise (KeyError k)
  end.

(** ** The module constant [_output_files] (lines 163-171)

    A Python [None] value is Rocq's [None]. The fourth key carries the
    colon that the source has inside the quotes. *)

Definition _output_files_items : list (string * option string) :=
  [ ("scalar_output_file", Some "scalar");
    ("vector_output_file", Some "vector");
    ("tensor_output_file", Some "tensor");
    ("total_output_file:", None);
    ("lensed_output_file", Some "lensed");
    ("lens_potential_output_file", Some "lens_potential");
    ("lensed_total_output_file", None);
    ("transfer_filename(1)", Some "transfer");
    ("transfer_matterpower(1)", Some "transfer_matterpower") ].

Definition _output_files : gmap string (option string) :=
  list_to_map _output_files_items.

(** ** [pycamb.__call__], lines 69-71: the parameter dictionary *)

(** [p.update(q)]: every item of [q] is stored into [p]. *)
Definition dict_update {V : Type} (p q : gmap string V) : gmap string V :=
  map_fold (fun k v acc => <[k:=v]> acc) p q.

(** [for k in ks: p.pop(k, None)] *)
Definition pop_all {V : Type} (ks : list string) (p : gmap string V)
  : gmap string V :=
  foldl (fun acc k => delete k acc) p ks.

(** Lines 69-70: [p = self.defaults.copy(); p.update(params)]. *)
Definition merge (defaults params : gmap string string) : gmap string string :=
  dict_update defaults params.

(** Lines 69-71: the dictionary [p] that the rest of [__call__] works on. *)
Definition call_params (defaults params : gmap string string)
  : gmap string string :=
  pop_all (map fst (map_to_list _output_files)) (merge defaults params).

(** ** [pycamb.__call__], lines 73-78: the list [outputfiles] *)

(** One [if p[key]=='T': outputfiles += add] line. *)
Definition switch (p : gmap string string) (key : string) (add : list string)
    (outputfiles : list string) : res (list string) :=
  v ←r getitem p key;
  Ok (if decide (v = "T") then outputfiles ++ add else outputfiles).

Definition outputfiles (p : gmap string string) : res (list string) :=
  o ←r switch p "get_scalar_cls" ["scalar_output_file"] [];
  o ←r switch p "get_vector_cls" ["vector_output_file"] o;
  o ←r switch p "get_tensor_cls" ["tensor_output_file"] o;
  o ←r switch p "do_lensing" ["lensed_output_file"; "lensed_output_file"] o;
  switch p "get_transfer" ["transfer_filename(1)"; "transfer_matterpower(1)"] o.

(** ** [writeparams], lines 89-91: the text sent to the parameter FIFO *)

(** ['%s = %s' % (k, v)] *)
Definition param_line (kv : string * string) : string :=
  kv.1 +:+ " = " +:+ kv.2.

(** [sep.join(l)] *)
Fixpoint join (sep : string) (l : list string) : string :=
  match l with
  | [] => ""
  | [x] => x
  | x :: rest => x +:+ sep +:+ join sep rest
  end.

Definition newline : string := String (ascii_of_nat 10) "".

(** The argument of [f.write], for the item list [p.items()]. *)
Definition param_text (items : list (string * string)) : string :=
  join newline (map param_line items ++ ["END"; ""]).

Definition writeparams_text (p : gmap string string) : string :=
  param_text (map_to_list p).

(** ** Numbers

    A Python 2 number is an [int] (unbounded: it turns into a [long]) or a
    [float]. Floating-point values are the finite ones, which are
    rationals, the two infinities and NaN. Floating-point arithmetic
    rounds; how it rounds is left open: the operations come as a
    parameter [ops], and every property below holds whatever they are. *)

Inductive float : Type :=
  | Finite (q : Qc)
  | Infinity (negative : bool)
  | NaN.

Record float_ops : Type := FloatOps {
  fadd : float → float → float;
  fsub : float → float → float;
  fdiv : float → float → float;
  of_int : Z → float;            (* [float(n)] *)
}.

Inductive number : Type :=
  | NInt (n : Z)
  | NFloat (x : float).

Definition to_float (ops : float_ops) (a : number) : float :=
  match a with
  | NInt n => of_int ops n
  | NFloat x => x
  end.

(** [a + b]: integer addition of two ints, float addition otherwise. *)
Definition py_add (ops : float_ops) (a b : number) : number :=
  match a, b with
  | NInt x, NInt y => NInt (x + y)
  | _, _ => NFloat (fadd ops (to_float ops a) (to_float ops b))
  end.

(** [a - b] *)
Definition py_sub (ops : float_ops) (a b : number) : number :=
  match a, b with
  | NInt x, NInt y => NInt (x - y)
  | _, _ => NFloat (fsub ops (to_float ops a) (to_float ops b))
  end.

(** [a/2] in Python 2: the floor of the quotient for an int. *)
Definition half (ops : float_ops) (a : number) : number :=
  match a with
  | NInt n => NInt (n / 2)
  | NFloat x => NFloat (fdiv ops x (of_int ops 2))
  end.

(** ** Result dictionaries

    The keys of [result] are the values of [_output_files] (a string or
    Python's [None]) and ['stdout']; its values are the arrays of floats
    that [numpy.loadtxt] returned, the captured standard output, and,
    after [derivative], a pair of both standard outputs. *)

Record mat : Type := Mat { ncols : nat; rows : list (list float) }.

Definition nrows (m : mat) : nat := length (rows m).

Inductive ndarray : Type :=
  | Arr0 (x : float)
  | Arr1 (xs : list float)
  | Arr2 (m : mat).

Inductive rvalue : Type :=
  | RArr (a : ndarray)
  | RStr (s : string)
  | RPair (x y : rvalue).

Abbreviation pykey := (option string) (only parsing).

Definition stdout_key : pykey := Some "stdout".

(** ** [readoutputs], lines 95-99, for the data that each [open] delivers *)

(** Lines 98-99: [try: result[_output_files[k]] = loadtxt(f)] /
    [except Exception: pass]. [loadtxt] is numpy's; [None] stands for any
    exception it raises. The [KeyError] of [_output_files[k]] is raised
    inside the same [try] and swallowed as well. *)
Definition read_channel (loadtxt : string → option ndarray)
    (result : gmap pykey rvalue) (k : string) (data : string)
  : gmap pykey rvalue :=
  match loadtxt data with
  | Some table =>
      match _output_files !! k with
      | Some name => <[name := RArr table]> result
      | None => result
      end
  | None => result
  end.

(** The loop of line 95 over the planned channels with their contents. *)
Definition readoutputs_loop (loadtxt : string → option ndarray)
    (result : gmap pykey rvalue) (channels : list (string * string))
  : gmap pykey rvalue :=
  foldl (fun r kd => read_channel loadtxt r kd.1 kd.2) result channels.

(** ** Array arithmetic used by [derivative], line 132 *)

(** Index into an axis of extent [d] under numpy broadcasting: an axis of
    extent one is repeated. *)
Definition bidx (d i : nat) : nat := if decide (d = 1) then 0 else i.

(** The entry in row [i] and column [j]. *)
Definition entry (m : mat) (i j : nat) : float :=
  nth j (nth i (rows m) []) (Finite 0).

(** The entry that the position [(i, j)] of a broadcast of [m] shows. *)
Definition mat_get (m : mat) (i j : nat) : float :=
  entry m (bidx (nrows m) i) (bidx (ncols m) j).

(** The extent of the broadcast of two axes, if they are compatible. *)
Definition bdim (n m : nat) : option nat :=
  if decide (n = m) then Some n
  else if decide (n = 1) then Some m
  else if decide (m = 1) then Some n
  else None.

Definition mat_build (n c : nat) (f : nat → nat → float) : mat :=
  Mat c (map (fun i => map (fun j => f i j) (seq 0 c)) (seq 0 n)).

(** [a[:,1:]]: needs two axes. *)
Definition tail_cols (a : ndarray) : res mat :=
  match a with
  | Arr2 m => Ok (Mat (ncols m - 1) (map (drop 1) (rows m)))
  | _ => Raise IndexError
  end.

(** [x - y] on two-dimensional arrays, with broadcasting. *)
Definition mat_sub (ops : float_ops) (x y : mat) : res mat :=
  match bdim (nrows x) (nrows y), bdim (ncols x) (ncols y) with
  | Some n, Some c =>
      Ok (mat_build n c (fun i j => fsub ops (mat_get x i j) (mat_get y i j)))
  | _, _ => Raise ValueError
  end.

(** [x / delta] for a Python number [delta]: every entry is divided by
    [float(delta)]; numpy raises nothing when that is zero. *)
Definition mat_div (ops : float_ops) (x : mat) (delta : number) : mat :=
  Mat (ncols x)
      (map (map (fun e => fdiv ops e (to_float ops delta))) (rows x)).

(** [a[:,1:] = x]: [x] is broadcast to the shape of the slice; the first
    column of [a] stays. *)
Definition set_tail_cols (a : ndarray) (x : mat) : res ndarray :=
  match a with
  | Arr2 m =>
      if decide ((nrows x = nrows m ∨ nrows x = 1)
                 ∧ (ncols x = ncols m - 1 ∨ ncols x = 1))
      then Ok (Arr2 (Mat (ncols m)
                 (imap (fun i r =>
                          take 1 r ++ map (fun j => mat_get x i j)
                                          (seq 0 (ncols m - 1)))
                       (rows m))))
      else Raise ValueError
  | _ => Raise IndexError
  end.

(** ** [pycamb.derivative], lines 124-135 *)

(** A value of the caller's [params]: text or a number. *)
Inductive pyval : Type :=
  | PStr (s : string)
  | PNum (x : number).

(** [params[k] += x] *)
Definition iadd (ops : float_ops) (params : gmap string pyval) (k : string)
    (x : number) : res (gmap string pyval) :=
  v ←r getitem params k;
  match v with
  | PNum y => Ok (<[k := PNum (py_add ops y x)]> params)
  | PStr _ => Raise TypeError
  end.

(** [params[k] -= x] *)
Definition isub (ops : float_ops) (params : gmap string pyval) (k : string)
    (x : number) : res (gmap string pyval) :=
  v ←r getitem params k;
  match v with
  | PNum y => Ok (<[k := PNum (py_sub ops y x)]> params)
  | PStr _ => Raise TypeError
  end.

(** Line 132 for one item [(k, v)] of [d1] with [k != 'stdout']. *)
Definition difference (ops : float_ops) (v : rvalue)
    (d0 : gmap pykey rvalue) (k : pykey) (delta : number) : res rvalue :=
  match v with
  | RArr a =>
      hi ←r tail_cols a;
      w ←r getitem_key d0 k;
      match w with
      | RArr b =>
          lo ←r tail_cols b;
          d ←r mat_sub ops hi lo;
          a' ←r set_tail_cols a (mat_div ops d delta);
          Ok (RArr a')
      | _ => Raise TypeError
      end
  | _ => Raise TypeError
  end.

(** Lines 131-132: the body of the loop for the item [kv] of [d1]; [acc]
    is [d1] as updated so far, or the exception already raised. *)
Definition derivative_step (ops : float_ops) (d0 : gmap pykey rvalue)
    (delta : number) (acc : res (gmap pykey rvalue)) (kv : pykey * rvalue)
  : res (gmap pykey rvalue) :=
  d ←r acc;
  if decide (kv.1 = stdout_key) then Ok d
  else v' ←r difference ops kv.2 d0 kv.1 delta;
       Ok (<[kv.1 := v']> d).

(** Lines 131-132: the loop over [d1.items()]; the arrays of [d1] are
    updated in place. *)
Definition derivative_loop (ops : float_ops) (d1 d0 : gmap pykey rvalue)
    (delta : number) : res (gmap pykey rvalue) :=
  foldl (derivative_step ops d0 delta) (Ok d1) (map_to_list d1).

(** [delta/2] and [-= delta] need a number; the default [delta=None] gives
    [TypeError]. *)
Definition as_number (delta : option number) : res number :=
  match delta with
  | Some x => Ok x
  | None => Raise TypeError
  end.

(** [derivative] threads the caller's dictionary [params], which it
    mutates: the first component of the result is [params] as the call
    leaves it, the second what the call returns or raises. [call] stands
    for the call of [self] with [params] as its keyword arguments. *)
Definition derivative (ops : float_ops)
    (call : gmap string pyval → res (gmap pykey rvalue))
    (dparam : string) (params : gmap string pyval) (delta : option number)
  : gmap string pyval * res (gmap pykey rvalue) :=
  match (_ ←r getitem params dparam; dl ←r as_number delta;
         iadd ops params dparam (half ops dl)) with
  | Raise e => (params, Raise e)
  | Ok params1 =>
      match call params1 with
      | Raise e => (params1, Raise e)
      | Ok d1 =>
          match (dl ←r as_number delta; isub ops params1 dparam dl) with
          | Raise e => (params1, Raise e)
          | Ok params2 =>
              (params2,
               d0 ←r call params2;
               dl ←r as_number delta;
               d ←r derivative_loop ops d1 d0 dl;
               s0 ←r getitem_key d0 stdout_key;
               s1 ←r getitem_key d stdout_key;
               Ok (<[stdout_key := RPair s0 s1]> d))
          end
      end
  end.

(** ** [_read_ini], lines 154-159, and the parser behind it

    [RawConfigParser] is the class of Python 2's module [ConfigParser];
    [readfp] runs its method [_read] over the lines of the text, and
    [items] returns the options of a section. The two regular expressions
    of [_read] are modelled by what they match: a section header is [[],
    one or more characters other than []] and []]; an option line is a
    name that does not start with white space, a colon or an equals sign
    and runs up to the first colon or equals sign, then the value, which
    is the rest of the line after leading white space. *)

(** The pieces of [s] between the occurrences of the character [c]
    (Python's [s.split(c)]). *)
Fixpoint split_on (c : ascii) (s : string) : list string :=
  match s with
  | "" => [""]
  | String a rest =>
      if decide (a = c) then "" :: split_on c rest
      else match split_on c rest with
           | x :: xs => String a x :: xs
           | [] => [String a ""]
           end
  end.

(** [c in s] *)
Fixpoint contains (c : ascii) (s : string) : bool :=
  match s with
  | "" => false
  | String a rest => if decide (a = c) then true else contains c rest
  end.







(** The lines that [readline] returns, without their newline: the pieces
    between the newlines, less an empty piece at the end of the text. *)
Definition readlines_of (pieces : list string) : list string :=
  match last pieces with
  | Some "" => removelast pieces
  | _ => pieces
  end.


















(** The dictionary that [cursect] refers to. *)
Inductive section : Type :=
  | SDefault
  | SNamed (name : string).

Record parser : Type := Parser {
  p_sections : gmap string (gmap string (list string));
  p_defaults : gmap string (list string);
  cursect : option section;
  optname : option string;
  errors : list nat;           (* the numbers of the lines not understood *)
}.








(** [dict(config.items(name))]: the defaults, overridden by the section,
    every value with its continuation lines joined by newlines. *)
Definition items (st : parser) (name : string)
  : res (gmap string string) :=
  match p_sections st !! name with
  | Some opts =>
      Ok (delete "__name__"
            (join newline <$> dict_update (p_defaults st) opts))
  | None =>
      if decide (name = "DEFAULT")
      then Ok (delete "__name__" (join newline <$> p_defaults st))
      else Raise (NoSectionError name)
  end.



(** ** Named pipes, as the operating system provides them

    [os.mkfifo], [open] on a FIFO and [os.unlink] are modelled after
    [fifo_open] of Linux: an open for reading (writing) counts the opener
    as a reader (writer) at once and returns as soon as a writer (reader)
    is or has been there; a thread that finds none sleeps until the
    counter of opens of the other side moves. Pipe buffers are unbounded.
    [linked] tells whether the path is still in the file system; open ends
    survive the unlink. *)

Record fifo : Type := Fifo {
  linked : bool;
  readers : nat;
  writers : nat;
  r_counter : nat;
  w_counter : nat;
  buffer : string;
}.

Definition new_fifo : fifo := Fifo true 0 0 0 0 "".

(** What an [open] found: it has returned, or the opener sleeps until the
    given counter value changes. *)
Inductive opening : Type :=
  | Opened
  | Blocked (seen : nat).

Definition enter_read (f : fifo) : fifo * opening :=
  (Fifo (linked f) (S (readers f)) (writers f) (S (r_counter f))
        (w_counter f) (buffer f),
   if decide (writers f = 0) then Blocked (w_counter f) else Opened).

Definition enter_write (f : fifo) : fifo * opening :=
  (Fifo (linked f) (readers f) (S (writers f)) (r_counter f)
        (S (w_counter f)) (buffer f),
   if decide (readers f = 0) then Blocked (r_counter f) else Opened).

(** The last close drops what is left in the pipe. *)
Definition drop_if_unused (f : fifo) : fifo :=
  if decide (readers f = 0 ∧ writers f = 0)
  then Fifo (linked f) 0 0 (r_counter f) (w_counter f) ""
  else f.

Definition close_read (f : fifo) : fifo :=
  drop_if_unused (Fifo (linked f) (readers f - 1) (writers f) (r_counter f)
                       (w_counter f) (buffer f)).

Definition close_write (f : fifo) : fifo :=
  drop_if_unused (Fifo (linked f) (readers f) (writers f - 1) (r_counter f)
                       (w_counter f) (buffer f)).

Definition put (f : fifo) (data : string) : fifo :=
  Fifo (linked f) (readers f) (writers f) (r_counter f) (w_counter f)
       (buffer f +:+ data).

Definition drain (f : fifo) : fifo :=
  Fifo (linked f) (readers f) (writers f) (r_counter f) (w_counter f) "".

Definition unlinked (f : fifo) : fifo :=
  Fifo false (readers f) (writers f) (r_counter f) (w_counter f) (buffer f).

(** ** The participants of one call

    Program points of the main thread (lines 101-122), of the thread
    running [writeparams], of the thread running [readoutputs] and of the
    child process. *)

Inductive main_pc : Type :=
  | MStartWriter                       (* line 102 *)
  | MStartReader                       (* lines 104-107 *)
  | MWait                              (* line 108 *)
  | MSpawn                             (* line 111, the child is started *)
  | MCommunicate                       (* line 111, waiting for its end *)
  | MCheck                             (* line 114 *)
  | MJoin                              (* line 115 *)
  | MRelease (ks : list string)        (* line 117, next [open(p[k],'a')] *)
  | MReleaseBlocked (path : string) (seen : nat) (ks : list string)
  | MReleaseClose (path : string) (ks : list string)
  | MUnlink (ks : list string)         (* line 119 *)
  | MUnlinkParam                       (* line 120 *)
  | MReturned                          (* line 122 *)
  | MRaised (e : exn).

Inductive writer_pc : Type :=
  | WIdle
  | WOpen                              (* line 90, [open(paramfile,'w')] *)
  | WBlocked (seen : nat)
  | WWrite                             (* line 91 *)
  | WClose
  | WDone
  | WRaised.

Inductive reader_pc : Type :=
  | RIdle
  | RSet                               (* line 94 *)
  | RLoop (ks : list string)           (* lines 95-96, next [open(p[k])] *)
  | RBlocked (path k : string) (seen : nat) (ks : list string)
  | ROpened (path k : string) (ks : list string)   (* line 97 *)
  | RRead (path k : string) (ks : list string)     (* lines 98-99 *)
  | RClose (path k : string) (ks : list string)
  | RDone
  | RRaised.

(** What an executable may do with the pipes: the parameter file is named
    by its argument, an output file by the parameter key whose value is
    its path. *)
Inductive action : Type :=
  | AOpenParam
  | AReadParam
  | ACloseParam
  | AOpenOut (k : string)
  | AWriteOut (k : string) (data : string)
  | ACloseOut (k : string)
  | APrint (data : string).

Inductive child_pc : Type :=
  | CIdle
  | CRun
  | CBlockedRead (path : string) (seen : nat)
  | CBlockedWrite (path : string) (seen : nat)
  | CExited (status : Z).

Record child : Type := Child {
  cpc : child_pc;
  prog : list action;          (* what is left to do *)
  exit_status : Z;             (* the status it ends with *)
  held : list (string * bool); (* open ends: path, [true] for writing *)
  received : string;           (* what it has read from the parameter file *)
  printed : string;            (* its standard output so far *)
}.

Record state : Type := State {
  fifos : gmap string fifo;
  files : gmap string string;  (* regular files made by an open for writing *)
  p : gmap string string;
  paramfile : string;
  outs : list string;          (* [outputfiles] *)
  result : gmap pykey rvalue;
  read_any : bool;
  ro_started : bool;
  main : main_pc;
  wp : writer_pc;
  ro : reader_pc;
  proc : child;
}.

Definition with_fifos (s : state) (x : gmap string fifo) : state :=
  State x (files s) (p s) (paramfile s) (outs s) (result s) (read_any s)
        (ro_started s) (main s) (wp s) (ro s) (proc s).
Definition with_files (s : state) (x : gmap string string) : state :=
  State (fifos s) x (p s) (paramfile s) (outs s) (result s) (read_any s)
        (ro_started s) (main s) (wp s) (ro s) (proc s).
Definition with_result (s : state) (x : gmap pykey rvalue) : state :=
  State (fifos s) (files s) (p s) (paramfile s) (outs s) x (read_any s)
        (ro_started s) (main s) (wp s) (ro s) (proc s).
Definition with_read_any (s : state) (x : bool) : state :=
  State (fifos s) (files s) (p s) (paramfile s) (outs s) (result s) x
        (ro_started s) (main s) (wp s) (ro s) (proc s).
Definition with_ro_started (s : state) (x : bool) : state :=
  State (fifos s) (files s) (p s) (paramfile s) (outs s) (result s)
        (read_any s) x (main s) (wp s) (ro s) (proc s).
Definition with_main (s : state) (x : main_pc) : state :=
  State (fifos s) (files s) (p s) (paramfile s) (outs s) (result s)
        (read_any s) (ro_started s) x (wp s) (ro s) (proc s).
Definition with_wp (s : state) (x : writer_pc) : state :=
  State (fifos s) (files s) (p s) (paramfile s) (outs s) (result s)
        (read_any s) (ro_started s) (main s) x (ro s) (proc s).
Definition with_ro (s : state) (x : reader_pc) : state :=
  State (fifos s) (files s) (p s) (paramfile s) (outs s) (result s)
        (read_any s) (ro_started s) (main s) (wp s) x (proc s).
Definition with_proc (s : state) (x : child) : state :=
  State (fifos s) (files s) (p s) (paramfile s) (outs s) (result s)
        (read_any s) (ro_started s) (main s) (wp s) (ro s) x.

Definition with_cpc (c : child) (x : child_pc) : child :=
  Child x (prog c) (exit_status c) (held c) (received c) (printed c).
Definition with_prog (c : child) (x : list action) : child :=
  Child (cpc c) x (exit_status c) (held c) (received c) (printed c).
Definition with_held (c : child) (x : list (string * bool)) : child :=
  Child (cpc c) (prog c) (exit_status c) x (received c) (printed c).
Definition with_received (c : child) (x : string) : child :=
  Child (cpc c) (prog c) (exit_status c) (held c) x (printed c).
Definition with_printed (c : child) (x : string) : child :=
  Child (cpc c) (prog c) (exit_status c) (held c) (received c) x.

(** The FIFO that a path names, if the path is still linked. *)
Definition fifo_at (s : state) (path : string) : option fifo :=
  match fifos s !! path with
  | Some f => if linked f then Some f else None
  | None => None
  end.

Definition set_fifo (s : state) (path : string) (f : fifo) : state :=
  with_fifos s (<[path := f]> (fifos s)).

(** An open end acts on the pipe whether or not the path is still linked. *)
Definition on_fifo (s : state) (path : string) (g : fifo → fifo) : state :=
  match fifos s !! path with
  | Some f => set_fifo s path (g f)
  | None => s
  end.

(** [os.unlink(path)] *)
Definition unlink (s : state) (path : string) : res state :=
  match fifo_at s path with
  | Some f => Ok (set_fifo s path (unlinked f))
  | None =>
      match files s !! path with
      | Some _ => Ok (with_files s (delete path (files s)))
      | None => Raise (OSError path)
      end
  end.

Definition after_open {A : Type} (o : opening) (opened : A)
    (blocked : nat → A) : A :=
  match o with
  | Opened => opened
  | Blocked seen => blocked seen
  end.

(** ** One step of the main thread, lines 101-122 *)

Definition main_step (s : state) : option state :=
  match main s with
  | MStartWriter => Some (with_main (with_wp s WOpen) MStartReader)
  | MStartReader =>
      Some (with_main
              (with_ro (with_ro_started (with_read_any s false) false) RSet)
              MWait)
  | MWait => if ro_started s then Some (with_main s MSpawn) else None
  | MSpawn => Some (with_main (with_proc s (with_cpc (proc s) CRun)) MCommunicate)
  | MCommunicate =>
      match cpc (proc s) with
      | CExited st =>
          if decide (st = 0%Z)
          then Some (with_main
                       (with_result s
                          (<[stdout_key := RStr (printed (proc s))]> (result s)))
                       MCheck)
          else Some (with_main s
                       (MRaised (CalledProcessError st (printed (proc s)))))
      | _ => None
      end
  | MCheck =>
      Some (with_main s (if read_any s then MJoin else MRelease (outs s)))
  | MJoin =>
      match ro s with
      | RDone | RRaised => Some (with_main s (MUnlink (outs s)))
      | _ => None
      end
  | MRelease [] => Some (with_main s (MUnlink (outs s)))
  | MRelease (k :: ks) =>
      match p s !! k with
      | None => Some (with_main s (MRaised (KeyError (Some k))))
      | Some path =>
          match fifo_at s path with
          | Some f =>
              Some (with_main (set_fifo s path (enter_write f).1)
                      (after_open (enter_write f).2
                         (MReleaseClose path ks)
                         (fun seen => MReleaseBlocked path seen ks)))
          | None =>
              (* mode 'a' makes a regular file, which is closed at once *)
              Some (with_main
                      (with_files s
                         (<[path := default "" (files s !! path)]> (files s)))
                      (MRelease ks))
          end
      end
  | MReleaseBlocked path seen ks =>
      match fifos s !! path with
      | Some f =>
          if decide (r_counter f = seen) then None
          else Some (with_main s (MReleaseClose path ks))
      | None => None
      end
  | MReleaseClose path ks =>
      Some (with_main (on_fifo s path close_write) (MRelease ks))
  | MUnlink [] => Some (with_main s MUnlinkParam)
  | MUnlink (k :: ks) =>
      match p s !! k with
      | None => Some (with_main s (MRaised (KeyError (Some k))))
      | Some path =>
          match unlink s path with
          | Ok s' => Some (with_main s' (MUnlink ks))
          | Raise e => Some (with_main s (MRaised e))
          end
      end
  | MUnlinkParam =>
      match unlink s (paramfile s) with
      | Ok s' => Some (with_main s' MReturned)
      | Raise e => Some (with_main s (MRaised e))
      end
  | MReturned | MRaised _ => None
  end.

(** ** One step of [writeparams], lines 89-91 *)

Definition writer_step (s : state) : option state :=
  match wp s with
  | WOpen =>
      match fifo_at s (paramfile s) with
      | Some f =>
          Some (with_wp (set_fifo s (paramfile s) (enter_write f).1)
                  (after_open (enter_write f).2 WWrite WBlocked))
      | None =>
          (* mode 'w' makes a regular file; it is written and closed *)
          Some (with_wp
                  (with_files s
                     (<[paramfile s := writeparams_text (p s)]> (files s)))
                  WDone)
      end
  | WBlocked seen =>
      match fifos s !! paramfile s with
      | Some f =>
          if decide (r_counter f = seen) then None else Some (with_wp s WWrite)
      | None => None
      end
  | WWrite =>
      match fifos s !! paramfile s with
      | Some f =>
          if decide (readers f = 0)
          then (* broken pipe: the exception ends the thread *)
               Some (with_wp (on_fifo s (paramfile s) close_write) WRaised)
          else Some (with_wp
                       (set_fifo s (paramfile s)
                          (put f (writeparams_text (p s))))
                       WClose)
      | None => None
      end
  | WClose => Some (with_wp (on_fifo s (paramfile s) close_write) WDone)
  | WIdle | WDone | WRaised => None
  end.

(** ** One step of [readoutputs], lines 93-99 *)

Definition reader_step (loadtxt : string → option ndarray) (s : state)
  : option state :=
  match ro s with
  | RSet => Some (with_ro (with_ro_started s true) (RLoop (outs s)))
  | RLoop [] => Some (with_ro s RDone)
  | RLoop (k :: ks) =>
      match p s !! k with
      | None => Some (with_ro s RRaised)
      | Some path =>
          match fifo_at s path with
          | Some f =>
              Some (with_ro (set_fifo s path (enter_read f).1)
                      (after_open (enter_read f).2
                         (ROpened path k ks)
                         (fun seen => RBlocked path k seen ks)))
          | None =>
              match files s !! path with
              | Some content =>
                  (* a regular file: lines 97-99 without waiting *)
                  Some (with_ro
                          (with_result (with_read_any s true)
                             (read_channel loadtxt (result s) k content))
                          (RLoop ks))
              | None => Some (with_ro s RRaised)
              end
          end
      end
  | RBlocked path k seen ks =>
      match fifos s !! path with
      | Some f =>
          if decide (w_counter f = seen) then None
          else Some (with_ro s (ROpened path k ks))
      | None => None
      end
  | ROpened path k ks => Some (with_ro (with_read_any s true) (RRead path k ks))
  | RRead path k ks =>
      (* [loadtxt(f)] reads to the end of file: every writer has closed *)
      match fifos s !! path with
      | Some f =>
          if decide (writers f = 0)
          then Some (with_ro
                       (with_result (set_fifo s path (drain f))
                          (read_channel loadtxt (result s) k (buffer f)))
                       (RClose path k ks))
          else None
      | None => None
      end
  | RClose path k ks => Some (with_ro (on_fifo s path close_read) (RLoop ks))
  | RIdle | RDone | RRaised => None
  end.

(** ** One step of the child process *)

Definition release_end (s : state) (e : string * bool) : state :=
  on_fifo s e.1 (if e.2 then close_write else close_read).

(** The process ends: the operating system closes what it held. *)
Definition child_exit (s : state) (status : Z) : state :=
  let s' := foldl release_end s (held (proc s)) in
  with_proc s' (with_held (with_cpc (proc s') (CExited status)) []).

Definition holds (c : child) (path : string) (writing : bool) : bool :=
  bool_decide ((path, writing) ∈ held c).

Fixpoint remove_end (e : string * bool) (l : list (string * bool))
  : list (string * bool) :=
  match l with
  | [] => []
  | x :: rest => if decide (x = e) then rest else x :: remove_end e rest
  end.

Definition sigpipe : Z := (-13)%Z.

Definition child_open (s : state) (path : string) (writing : bool) : state :=
  match fifo_at s path with
  | Some f =>
      let fo := if writing then enter_write f else enter_read f in
      let c := with_held (proc s) ((path, writing) :: held (proc s)) in
      with_proc (set_fifo s path fo.1)
        (with_cpc c
           (after_open fo.2 CRun
              (if writing then CBlockedWrite path else CBlockedRead path)))
  | None => s
  end.

Definition child_close (s : state) (path : string) (writing : bool) : state :=
  if holds (proc s) path writing
  then let s' := release_end s (path, writing) in
       with_proc s' (with_held (proc s') (remove_end (path, writing) (held (proc s'))))
  else s.

Definition child_step (s : state) : option state :=
  match cpc (proc s) with
  | CRun =>
      match prog (proc s) with
      | [] => Some (child_exit s (exit_status (proc s)))
      | a :: rest =>
          let s1 := with_proc s (with_prog (proc s) rest) in
          match a with
          | AOpenParam => Some (child_open s1 (paramfile s) false)
          | AReadParam =>
              if holds (proc s) (paramfile s) false then
                match fifos s !! paramfile s with
                | Some f =>
                    if decide (writers f = 0)
                    then Some (with_proc
                                 (set_fifo s1 (paramfile s) (drain f))
                                 (with_received (proc s1)
                                    (received (proc s1) +:+ buffer f)))
                    else None
                | None => Some s1
                end
              else Some s1
          | ACloseParam => Some (child_close s1 (paramfile s) false)
          | AOpenOut k =>
              match p s !! k with
              | Some path => Some (child_open s1 path true)
              | None => Some s1
              end
          | AWriteOut k data =>
              match p s !! k with
              | Some path =>
                  if holds (proc s) path true then
                    match fifos s !! path with
                    | Some f =>
                        if decide (readers f = 0)
                        then Some (child_exit s1 sigpipe)
                        else Some (set_fifo s1 path (put f data))
                    | None => Some s1
                    end
                  else Some s1
              | None => Some s1
              end
          | ACloseOut k =>
              match p s !! k with
              | Some path => Some (child_close s1 path true)
              | None => Some s1
              end
          | APrint data =>
              Some (with_proc s1
                      (with_printed (proc s1) (printed (proc s1) +:+ data)))
          end
      end
  | CBlockedRead path seen =>
      match fifos s !! path with
      | Some f =>
          if decide (w_counter f = seen) then None
          else Some (with_proc s (with_cpc (proc s) CRun))
      | None => None
      end
  | CBlockedWrite path seen =>
      match fifos s !! path with
      | Some f =>
          if decide (r_counter f = seen) then None
          else Some (with_proc s (with_cpc (proc s) CRun))
      | None => None
      end
  | CIdle | CExited _ => None
  end.

(** ** Runs *)

Inductive tid : Type := TMain | TWriter | TReader | TChild.

Definition thread_step (loadtxt : string → option ndarray) (t : tid)
    (s : state) : option state :=
  match t with
  | TMain => main_step s
  | TWriter => writer_step s
  | TReader => reader_step loadtxt s
  | TChild => child_step s
  end.

(** Some participant takes a step. *)
Definition step (loadtxt : string → option ndarray) (s s' : state) : Prop :=
  ∃ t, thread_step loadtxt t s = Some s'.

Definition reachable (loadtxt : string → option ndarray) (s s' : state)
  : Prop :=
  rtc (step loadtxt) s s'.

(** Nobody can move. *)
Definition stuck (loadtxt : string → option ndarray) (s : state) : Prop :=
  ∀ t, thread_step loadtxt t s = None.

(** The run in which the participants move in the given order. *)
Fixpoint run_schedule (loadtxt : string → option ndarray) (sch : list tid)
    (s : state) : option state :=
  match sch with
  | [] => Some s
  | t :: rest =>
      match thread_step loadtxt t s with
      | Some s' => run_schedule loadtxt rest s'
      | None => None
      end
  end.

(** ** Lines 69-87: the state in which the threads are started *)

(** [os.mkfifo(path)] *)
Definition mkfifo (fs : gmap string fifo) (path : string)
  : res (gmap string fifo) :=
  match fs !! path with
  | Some _ => Raise (OSError path)
  | None => Ok (<[path := new_fifo]> fs)
  end.

(** Lines 80-82. [mktemp] is given the names in use and a suffix. *)
Fixpoint make_fifos (mktemp : gset string → string → string)
    (ks : list string) (p : gmap string string) (fs : gmap string fifo)
  : res (gmap string string * gmap string fifo) :=
  match ks with
  | [] => Ok (p, fs)
  | k :: rest =>
      let path := mktemp (dom fs) ("_" +:+ k) in
      fs' ←r mkfifo fs path;
      make_fifos mktemp rest (<[k := path]> p) fs'
  end.

(** The executable is given by what it does and the status it ends with. *)
Definition start (mktemp : gset string → string → string)
    (defaults params : gmap string string)
    (program : list action) (status : Z) : res state :=
  o ←r outputfiles (call_params defaults params);
  pf ←r make_fifos mktemp o (call_params defaults params) ∅;
  fs ←r mkfifo pf.2 (mktemp (dom pf.2) "_param");
  Ok (State fs ∅ pf.1 (mktemp (dom pf.2) "_param") o ∅ false false
            MStartWriter WIdle RIdle
            (Child CIdle program status [] "" "")).

(** * Vocabulary of the properties and example inputs *)

(** The parameter set with lensing as its only requested output. *)
Definition lensing_only : gmap string string :=
  list_to_map
    [ ("get_scalar_cls", "F"); ("get_vector_cls", "F");
      ("get_tensor_cls", "F"); ("do_lensing", "T"); ("get_transfer", "F") ].

Fixpoint concat_strings (l : list string) : string :=
  match l with
  | [] => ""
  | x :: rest => x +:+ concat_strings rest
  end.

(** The channels whose bytes [loadtxt] decodes. *)
Definition decodes (loadtxt : string → option ndarray)
    (kd : string * string) : bool :=
  bool_decide (is_Some (loadtxt kd.2)).

(** A decoder for examples: a single digit is a zero-dimensional array,
    anything else does not decode. *)
Definition digit_loadtxt (s : string) : option ndarray :=
  if decide (s = "1") then Some (Arr0 (Finite 1))
  else if decide (s = "2") then Some (Arr0 (Finite (1 + 1)))
  else None.

(** Every row has as many entries as the array has columns. *)
Definition mat_wf (m : mat) : Prop := Forall (fun r => length r = ncols m) (rows m).

(** *** Example inputs of [derivative] *)

(** The float of an integer, for examples. *)
Definition fz (z : Z) : float := Finite (Q2Qc (inject_Z z)).

(** Floating-point operations for examples: no rounding on finite values,
    NaN elsewhere and for a division by zero. *)
Definition exact_ops : float_ops :=
  FloatOps
    (fun a b => match a, b with
                | Finite x, Finite y => Finite (x + y)
                | _, _ => NaN
                end)
    (fun a b => match a, b with
                | Finite x, Finite y => Finite (x - y)
                | _, _ => NaN
                end)
    (fun a b => match a, b with
                | Finite x, Finite y =>
                    if decide (y = 0%Qc) then NaN else Finite (x / y)
                | _, _ => NaN
                end)
    fz.

(** A stand-in for the pipeline that reports the value of [x] it was
    called with on its standard output. *)
Definition echo_call (params : gmap string pyval)
  : res (gmap pykey rvalue) :=
  match params !! "x" with
  | Some (PNum (NInt n)) => Ok {[ stdout_key := RStr (pretty n) ]}
  | _ => Raise (KeyError (Some "x"))
  end.

Definition int_params : gmap string pyval :=
  list_to_map [ ("x", PNum (NInt 1)); ("get_scalar_cls", PStr "T") ].

(** A stand-in for the pipeline whose scalar table depends on [ombh2]:
    rows [l, x + x, x + 1] for [l = 1, 2]. *)
Definition linear_call (params : gmap string pyval)
  : res (gmap pykey rvalue) :=
  match params !! "ombh2" with
  | Some (PNum x) =>
      let v := to_float exact_ops x in
      Ok (list_to_map
            [ (Some "scalar",
               RArr (Arr2 (Mat 3
                  [ [fz 1; fadd exact_ops v v; fadd exact_ops v (fz 1)];
                    [fz 2; fadd exact_ops v v; fadd exact_ops v (fz 1)] ])));
              (stdout_key, RStr "done") ])
  | _ => Raise (KeyError (Some "ombh2"))
  end.

Definition linear_params : gmap string pyval :=
  list_to_map [ ("ombh2", PNum (NFloat (fz 1))); ("get_scalar_cls", PStr "T") ].

Definition linear_result : gmap pykey rvalue :=
  match (derivative exact_ops linear_call "ombh2" linear_params
           (Some (NInt 2))).2 with
  | Ok r => r
  | Raise _ => ∅
  end.

(** The order of start-up: the child exists only after the reader
    thread has set [ro_started], which it does before its first
    [open]. *)
Definition startup_inv (s : state) : Prop :=
  (main s = MStartWriter ∨ main s = MStartReader →
     ro s = RIdle ∧ cpc (proc s) = CIdle)
  ∧ (main s = MWait ∨ main s = MSpawn → cpc (proc s) = CIdle)
  ∧ (main s = MSpawn → ro_started s = true)
  ∧ (ro s = RIdle → ro_started s = false)
  ∧ (ro s = RSet → main s = MWait ∧ ro_started s = false)
  ∧ (cpc (proc s) ≠ CIdle → ro_started s = true).

(** Everything but the pipes is the same in both states. *)
Definition same_control (s s' : state) : Prop :=
  files s' = files s ∧ p s' = p s ∧ paramfile s' = paramfile s
  ∧ outs s' = outs s ∧ result s' = result s ∧ read_any s' = read_any s
  ∧ ro_started s' = ro_started s ∧ main s' = main s ∧ wp s' = wp s
  ∧ ro s' = ro s ∧ proc s' = proc s.

(** The child process has been started. *)
Definition child_started (s : state) : Prop := cpc (proc s) ≠ CIdle.

(** The reader thread is inside an [open] that has not returned, or past
    its first [open]. *)
Definition reader_in_open (s : state) : Prop :=
  match ro s with
  | RBlocked _ _ _ _ => True
  | _ => False
  end.

(** The child touches the pipes and itself, and nothing else. *)
Definition child_frame (s s' : state) : Prop :=
  files s' = files s ∧ p s' = p s ∧ paramfile s' = paramfile s
  ∧ outs s' = outs s ∧ result s' = result s ∧ read_any s' = read_any s
  ∧ ro_started s' = ro_started s ∧ main s' = main s ∧ wp s' = wp s
  ∧ ro s' = ro s ∧ exit_status (proc s') = exit_status (proc s).


(** *** Example runs *)

(** A [mktemp] for examples: the number of names in use makes the name
    new. *)
Definition counter_mktemp (used : gset string) (suffix : string) : string :=
  "/tmp/tmp" +:+ pretty (size used) +:+ suffix.

(** Caller parameters that set the five switches. *)
Definition switches (s v t l tr : string) : gmap string string :=
  list_to_map
    [ ("get_scalar_cls", s); ("get_vector_cls", v); ("get_tensor_cls", t);
      ("do_lensing", l); ("get_transfer", tr) ].

Definition idle_state : state :=
  State ∅ ∅ ∅ "" [] ∅ false false MStartWriter WIdle RIdle
        (Child CIdle [] 0 [] "" "").

Definition started (r : res state) : state :=
  match r with
  | Ok s => s
  | Raise _ => idle_state
  end.

Definition after (o : option state) : state :=
  match o with
  | Some s => s
  | None => idle_state
  end.

(** Scalar spectra only, and an executable that does nothing and ends with
    status 0. *)
Definition quiet_start : state :=
  started (start counter_mktemp ∅ (switches "T" "F" "F" "F" "F") [] 0).

(** The child has been started and has ended, the reader thread has set
    [ro_started] and has not called [open] yet. *)
Definition quiet_schedule : list tid :=
  [TMain; TMain; TReader; TMain; TMain; TChild].

(** Scalar and vector spectra are requested; the executable reads its
    parameter file, writes the scalar file only, and ends with status 0. *)
Definition partial_skip_program : list action :=
  [ AOpenParam; AReadParam; ACloseParam;
    AOpenOut "scalar_output_file"; AWriteOut "scalar_output_file" "1";
    ACloseOut "scalar_output_file"; APrint "ok" ].

Definition partial_skip_start : state :=
  started (start counter_mktemp ∅ (switches "T" "T" "F" "F" "F")
             partial_skip_program 0).

Definition partial_skip_schedule : list tid :=
  [ TMain; TMain; TReader; TMain; TMain;       (* threads and child started *)
    TWriter; TChild; TWriter; TWriter; TWriter; (* the parameters are sent *)
    TChild; TChild;                             (* ... and received *)
    TReader; TChild; TReader; TReader;          (* scalar file opened *)
    TChild; TChild; TReader; TReader;           (* ... written and read *)
    TReader;                                    (* vector file: open blocks *)
    TChild; TChild;                             (* the child ends *)
    TMain; TMain ].                             (* line 114: join *)

(** *** Invariants of a run *)

(** The exit status that the main thread has seen. *)
Definition exit_inv (s : state) : Prop :=
  match main s with
  | MStartWriter | MStartReader | MWait | MSpawn => cpc (proc s) = CIdle
  | MCommunicate => True
  | MRaised (CalledProcessError st out) =>
      st ≠ 0%Z ∧ cpc (proc s) = CExited st ∧ out = printed (proc s)
  | _ => cpc (proc s) = CExited 0
  end.

(** The same paths name pipes in both states, linked or not as before. *)
Definition pipes_kept (s s' : state) : Prop :=
  ∀ path, linked <$> (fifos s' !! path) = linked <$> (fifos s !! path).

Definition all_linked (s : state) : Prop :=
  ∀ path f, fifos s !! path = Some f → linked f = true.

(** The main thread has not reached line 119. *)
Definition before_unlink (pc : main_pc) : Prop :=
  match pc with
  | MUnlink _ | MUnlinkParam | MReturned
  | MRaised (OSError _) | MRaised (KeyError _) => False
  | _ => True
  end.

Definition linked_inv (s0 s : state) : Prop :=
  dom (fifos s) = dom (fifos s0)
  ∧ (before_unlink (main s) → all_linked s).

(** Scalar spectra only; the executable prints a message and ends with
    status 3 without touching a pipe. *)
Definition failing_start : state :=
  started (start counter_mktemp ∅ (switches "T" "F" "F" "F" "F")
             [APrint "oops"] 3).

Definition failing_schedule : list tid :=
  [TMain; TMain; TReader; TMain; TMain; TChild; TChild; TMain].

(** Lensing only: line 77 plans [lensed_output_file] twice. The executable
    writes the lensed file twice, a table the first time and text that
    does not decode the second time, and ends with status 0. *)
Definition lensed_program : list action :=
  [ AOpenOut "lensed_output_file"; AWriteOut "lensed_output_file" "1";
    ACloseOut "lensed_output_file";
    AOpenOut "lensed_output_file"; AWriteOut "lensed_output_file" "x y";
    ACloseOut "lensed_output_file" ].

Definition lensed_start : state :=
  started (start counter_mktemp ∅ (switches "F" "F" "F" "T" "F")
             lensed_program 0).

(** Up to the second read of the reader thread. *)
Definition lensed_schedule : list tid :=
  [ TMain; TMain; TReader; TMain; TMain;
    TReader; TChild; TReader; TReader; TChild; TChild; TReader; TReader;
    TReader; TChild; TReader; TReader; TChild; TChild ].

(** *** Keys and values that the parser gives back unchanged *)





(** The serialized text without its last line [END]. *)
Definition param_body (p : gmap string string) : string :=
  concat_strings
    (map (fun kv => kv.1 +:+ " = " +:+ kv.2 +:+ String "010" "")
         (map_to_list p)).


(** *** The switches of the output plan *)

(** The keys that lines 74-78 look up, in that order. *)
Definition switch_keys : list string :=
  [ "get_scalar_cls"; "get_vector_cls"; "get_tensor_cls"; "do_lensing";
    "get_transfer" ].

(** What one switch with the value [v] adds to the plan. *)
Definition planned (v : string) (add : list string) : list string :=
  if decide (v = "T") then add else [].

(** * Properties *)

(** ** Result monad and dictionaries *)

Lemma rbind_Ok_inv {A B : Type} (m : res A) (f : A → res B) (b : B) :
  rbind m f = Ok b → ∃ a, m = Ok a ∧ f a = Ok b.
Proof. destruct m as [a|e]; simpl; [eauto | discriminate]. Qed.

Lemma getitem_Ok {V : Type} (d : gmap string V) (k : string) (v : V) :
  getitem d k = Ok v ↔ d !! k = Some v.
Proof.
  unfold getitem. destruct (d !! k) as [w|]; split; intros H;
    try discriminate; congruence.
Qed.

Lemma dict_update_union {V : Type} (p q : gmap string V) :
  dict_update p q = q ∪ p.
Proof.
  unfold dict_update.
  apply (map_fold_weak_ind (fun r m => r = m ∪ p)).
  - by rewrite (left_id_L ∅ (∪)).
  - intros k v m r _ ->. by rewrite insert_union_l.
Qed.

Lemma pop_all_lookup {V : Type} (ks : list string) (p : gmap string V)
    (k : string) :
  pop_all ks p !! k = if decide (k ∈ ks) then None else p !! k.
Proof.
  unfold pop_all. revert p. induction ks as [|a ks IH]; intros p; simpl.
  - destruct (decide (k ∈ [])) as [Hin|_]; [by inversion Hin | done].
  - rewrite IH. destruct (decide (k = a)) as [->|Hne].
    + rewrite lookup_delete_eq.
      destruct (decide (a ∈ a :: ks)) as [|Hn]; [by destruct (decide (a ∈ ks)) | exfalso; apply Hn; left].
    + rewrite lookup_delete_ne by done.
      destruct (decide (k ∈ ks)) as [Hin|Hin], (decide (k ∈ a :: ks)) as [Hin'|Hin'];
        try done; [exfalso; apply Hin'; by right | exfalso; apply Hin; by inversion Hin'].
Qed.

Lemma elem_of_keys_dom {V : Type} (m : gmap string V) (k : string) :
  k ∈ map fst (map_to_list m) ↔ k ∈ dom m.
Proof.
  rewrite elem_of_dom. change (map fst (map_to_list m)) with (fst <$> map_to_list m).
  rewrite list_elem_of_fmap. split.
  - intros [[k' v] [-> Hin]]. apply elem_of_map_to_list in Hin. eauto.
  - intros [v Hv]. exists (k, v). split; [done|]. by apply elem_of_map_to_list.
Qed.

Lemma dict_update_lookup {V : Type} (p q : gmap string V) (k : string) :
  dict_update p q !! k =
    match q !! k with
    | Some v => Some v
    | None => p !! k
    end.
Proof.
  rewrite dict_update_union, lookup_union.
  destruct (q !! k), (p !! k); reflexivity.
Qed.

(** C5: merging (lines 69-70) is a right-biased union. For every defaults
    mapping, every overrides mapping and every key, with no check of the
    key against any schema: a key of the overrides maps to the override's
    value, whether or not the defaults hold it; a key of the defaults
    alone keeps the default's value; a key of neither is absent; so the
    keys of the merged dictionary are those of both mappings. *)
Theorem merge_right_biased (defaults params : gmap string string) :
  (∀ k, merge defaults params !! k =
          match params !! k with
          | Some v => Some v
          | None => defaults !! k
          end)
  ∧ dom (merge defaults params) = dom defaults ∪ dom params.
Proof.
  split.
  - intros k. unfold merge. apply dict_update_lookup.
  - unfold merge. rewrite dict_update_union, dom_union_L.
    apply set_eq. intros k. rewrite !elem_of_union. tauto.
Qed.

(** After the merge, line 71 removes the reserved keys: the dictionary
    that the rest of [__call__] works on holds no key of [_output_files],
    whichever mapping brought it, and every other key as merged. *)
Lemma call_params_lookup (defaults params : gmap string string) (k : string) :
  call_params defaults params !! k =
    if decide (k ∈ dom _output_files) then None
    else match params !! k with
         | Some v => Some v
         | None => defaults !! k
         end.
Proof.
  unfold call_params, merge. rewrite pop_all_lookup, dict_update_lookup.
  destruct (decide (k ∈ map fst (map_to_list _output_files))) as [Hin|Hin];
    rewrite elem_of_keys_dom in Hin; case_decide; done.
Qed.

(** ** The output plan *)

Lemma switch_Ok (p : gmap string string) (key : string)
    (add acc out : list string) :
  switch p key add acc = Ok out ↔
  ∃ v, p !! key = Some v ∧ out = if decide (v = "T") then acc ++ add else acc.
Proof.
  unfold switch, getitem. destruct (p !! key) as [v|]; simpl; split.
  - intros [= <-]. eauto.
  - intros (w & [= <-] & ->). done.
  - discriminate.
  - intros (w & [=] & _).
Qed.


(** C4 (code at the failing input): with [do_lensing] as the only truthy
    switch, line 77 puts [lensed_output_file] into the plan twice, where the
    claim has the lensed channel exactly once. *)
Theorem outputfiles_lensing_only :
  outputfiles lensing_only = Ok ["lensed_output_file"; "lensed_output_file"].
Proof. vm_compute. reflexivity. Qed.

(** ** The parameter file text *)


Lemma append_cons (x : ascii) (a b : string) :
  String x a +:+ b = String x (a +:+ b).
Proof. reflexivity. Qed.

Lemma append_nil_l (a : string) : "" +:+ a = a.
Proof. reflexivity. Qed.

Lemma string_app_assoc (a b c : string) : (a +:+ b) +:+ c = a +:+ (b +:+ c).
Proof.
  induction a as [|x a IH]; [done|]. by rewrite !append_cons, IH.
Qed.

Lemma string_app_nil_r (a : string) : a +:+ "" = a.
Proof. induction a as [|x a IH]; [done|]. by rewrite append_cons, IH. Qed.

Lemma join_cons (sep x y : string) (l : list string) :
  join sep (x :: y :: l) = x +:+ sep +:+ join sep (y :: l).
Proof. reflexivity. Qed.

Lemma join_terminated (sep : string) (l : list string) :
  join sep (l ++ [""]) = concat_strings (map (fun x => x +:+ sep) l).
Proof.
  induction l as [|x l IH]; [done|].
  change ((x :: l) ++ [""]) with (x :: (l ++ [""])).
  change (concat_strings (map (fun x => x +:+ sep) (x :: l)))
    with ((x +:+ sep) +:+ concat_strings (map (fun x => x +:+ sep) l)).
  rewrite <- IH. destruct l as [|y r].
  - simpl. by rewrite !string_app_nil_r.
  - change ((y :: r) ++ [""]) with (y :: (r ++ [""])).
    by rewrite join_cons, string_app_assoc.
Qed.

Lemma param_text_concat (items : list (string * string)) :
  param_text items =
    concat_strings (map (fun kv => param_line kv +:+ newline) items)
    +:+ "END" +:+ newline.
Proof.
  unfold param_text.
  replace (map param_line items ++ ["END"; ""])
    with ((map param_line items ++ ["END"]) ++ [""])
    by (by rewrite <- app_assoc).
  rewrite join_terminated, map_app, map_map.
  induction items as [|kv items IH]; [reflexivity|].
  change (concat_strings (map (fun x => param_line x +:+ newline) (kv :: items)
                          ++ map (fun x => x +:+ newline) ["END"]))
    with ((param_line kv +:+ newline)
          +:+ concat_strings (map (fun x => param_line x +:+ newline) items
                              ++ map (fun x => x +:+ newline) ["END"])).
  rewrite IH.
  change (concat_strings (map (fun kv => param_line kv +:+ newline) (kv :: items)))
    with ((param_line kv +:+ newline)
          +:+ concat_strings (map (fun kv => param_line kv +:+ newline) items)).
  by rewrite !string_app_assoc.
Qed.

Lemma split_on_cons_sep (c : ascii) (s : string) :
  split_on c (String c s) = "" :: split_on c s.
Proof. simpl. by rewrite decide_True. Qed.

Lemma split_on_before_sep (c : ascii) (x s : string) :
  contains c x = false →
  split_on c (x +:+ String c s) = x :: split_on c s.
Proof.
  induction x as [|a x IH]; intros Hx.
  - rewrite append_nil_l. apply split_on_cons_sep.
  - simpl in Hx. rewrite append_cons. simpl.
    destruct (decide (a = c)); [discriminate|]. by rewrite IH.
Qed.

Lemma split_on_no_sep (c : ascii) (x : string) :
  contains c x = false → split_on c x = [x].
Proof.
  induction x as [|a x IH]; intros Hx; [done|].
  simpl in *. destruct (decide (a = c)); [discriminate|]. by rewrite IH.
Qed.

Lemma split_on_join (c : ascii) (l : list string) :
  l ≠ [] → Forall (fun x => contains c x = false) l →
  split_on c (join (String c "") l) = l.
Proof.
  induction l as [|x l IH]; intros Hne Hall; [done|].
  apply Forall_cons in Hall as [Hx Hall]. destruct l as [|y r].
  - by apply split_on_no_sep.
  - rewrite join_cons. rewrite append_cons, append_nil_l.
    rewrite split_on_before_sep by done. by rewrite IH.
Qed.

Lemma contains_app (c : ascii) (x y : string) :
  contains c (x +:+ y) = contains c x || contains c y.
Proof.
  induction x as [|a x IH]; [done|]. rewrite append_cons. simpl.
  by destruct (decide (a = c)).
Qed.

(** The text is its lines ahead of [END], each with its newline, and
    then [END] and a newline. *)
Lemma writeparams_text_body (p : gmap string string) :
  writeparams_text p = param_body p +:+ "END" +:+ String "010" "".
Proof.
  unfold writeparams_text, param_body. rewrite param_text_concat.
  unfold param_line, newline. f_equal.
  induction (map_to_list p) as [|kv l IH]; [done|].
  simpl. by rewrite IH, !string_app_assoc.
Qed.

(** C7 (as stated, refuted): one entry whose value holds a newline. The
    text has two lines ahead of [END], and the second one, [b], is no
    [key = value] line: nothing escapes a newline in a key or a value. *)
Lemma newline_value_spreads_over_lines :
  let p : gmap string string := {[ "note" := String "a" (String "010" "b") ]} in
  size p = 1
  ∧ split_on "010" (writeparams_text p) = ["note = a"; "b"; "END"; ""].
Proof. vm_compute. done. Qed.

(** C7 (amended): for every parameter set, the text handed to [f.write]
    is, entry by entry in the order of [p.items()], the key, [ = ], the
    value and a newline, then [END] and a newline; when no key and no
    value holds a newline, its lines are exactly one [key = value] line
    per entry, then the line [END], then an empty last line. *)
Theorem writeparams_text_lines (p : gmap string string) :
  writeparams_text p =
    concat_strings
      (map (fun kv => kv.1 +:+ " = " +:+ kv.2 +:+ String "010" "")
           (map_to_list p))
    +:+ "END" +:+ String "010" ""
  ∧ ((∀ k v, p !! k = Some v →
        contains "010" k = false ∧ contains "010" v = false) →
     split_on "010" (writeparams_text p) =
       map (fun kv => kv.1 +:+ " = " +:+ kv.2) (map_to_list p)
       ++ ["END"; ""]).
Proof.
  split.
  - apply (writeparams_text_body p).
  - intros Hnl. unfold writeparams_text, param_text.
    change newline with (String "010" "").
    rewrite split_on_join.
    + done.
    + by destruct (map param_line (map_to_list p)).
    + apply Forall_app. split; [|by repeat constructor].
      apply Forall_forall. intros x Hx.
      apply list_elem_of_In, in_map_iff in Hx as ([k v] & <- & Hin).
      apply list_elem_of_In, elem_of_map_to_list in Hin.
      destruct (Hnl _ _ Hin) as [Hk Hv].
      unfold param_line. simpl. by rewrite !contains_app, Hk, Hv.
Qed.

Lemma writeparams_text_lines_witness :
  let p : gmap string string :=
    list_to_map [("get_scalar_cls", "T"); ("ombh2", "0.0226")] in
  split_on "010" (writeparams_text p) =
    map (fun kv => kv.1 +:+ " = " +:+ kv.2) (map_to_list p) ++ ["END"; ""].
Proof.
  apply (proj2 (writeparams_text_lines
                  (list_to_map [("get_scalar_cls", "T"); ("ombh2", "0.0226")]))).
  intros k v H. apply elem_of_map_to_list, list_elem_of_In in H.
  assert (map_to_list
            (list_to_map [("get_scalar_cls", "T"); ("ombh2", "0.0226")]
             : gmap string string)
          = [("ombh2", "0.0226"); ("get_scalar_cls", "T")]) as Hl
    by (vm_compute; reflexivity).
  rewrite Hl in H.
  destruct H as [[= <- <-]|[[= <- <-]|[]]]; split; reflexivity.
Defined.

(** ** The reader loop *)

Section Reader.
Variable loadtxt : string → option ndarray.

Lemma read_channel_failed result k data :
  loadtxt data = None → read_channel loadtxt result k data = result.
Proof. intros H. unfold read_channel. by rewrite H. Qed.

Lemma read_channel_other result k data name :
  _output_files !! k ≠ Some name →
  read_channel loadtxt result k data !! name = result !! name.
Proof.
  intros Hk. unfold read_channel.
  destruct (loadtxt data); [|done].
  destruct (_output_files !! k) as [nm|] eqn:E; [|done].
  rewrite lookup_insert_ne; [done | congruence].
Qed.

(** A read that does not decode leaves no trace: the loop gives what it
    gives on the decodable channels alone. *)
Lemma readoutputs_loop_filter result channels :
  readoutputs_loop loadtxt result channels =
  readoutputs_loop loadtxt result (filter (fun kd => decodes loadtxt kd) channels).
Proof.
  unfold readoutputs_loop. revert result.
  induction channels as [|[k d] l IH]; intros result; [done|].
  destruct (loadtxt d) as [t|] eqn:E.
  - rewrite filter_cons_True.
    2:{ unfold decodes. apply bool_decide_spec. simpl. rewrite E. eauto. }
    simpl. apply IH.
  - rewrite filter_cons_False.
    2:{ unfold decodes. intros H%bool_decide_spec. simpl in H.
        rewrite E in H. by destruct H. }
    simpl. rewrite (read_channel_failed _ _ _ E). apply IH.
Qed.

Lemma readoutputs_loop_absent result channels name :
  result !! name = None →
  (∀ k d, (k, d) ∈ channels → _output_files !! k = Some name →
          loadtxt d = None) →
  readoutputs_loop loadtxt result channels !! name = None.
Proof.
  unfold readoutputs_loop. revert result.
  induction channels as [|[k d] l IH]; intros result Hres Hall; [done|].
  simpl. apply IH.
  - destruct (decide (_output_files !! k = Some name)) as [Hk|Hk].
    + rewrite read_channel_failed; [done|].
      apply (Hall k d); [left | done].
    + by rewrite read_channel_other.
  - intros k' d' Hin. apply Hall. by right.
Qed.

End Reader.

(** ** Array arithmetic *)

Lemma bidx_lt (d i : nat) : i < d → bidx d i = i.
Proof. unfold bidx. case_decide; lia. Qed.

Lemma bidx_bidx (n d i : nat) :
  n = d ∨ n = 1 → bidx n (bidx d i) = bidx n i.
Proof. unfold bidx. repeat case_decide; lia. Qed.

Lemma mat_get_in_range (m : mat) (i j : nat) :
  i < nrows m → j < ncols m → mat_get m i j = entry m i j.
Proof. intros Hi Hj. unfold mat_get. by rewrite !bidx_lt. Qed.

Lemma nth_map_seq {A : Type} (f : nat → A) (n i : nat) (d : A) :
  i < n → nth i (map f (seq 0 n)) d = f i.
Proof.
  intros Hi. rewrite (nth_indep _ d (f 0)) by (rewrite length_map, length_seq; lia).
  rewrite (map_nth f), seq_nth by lia. done.
Qed.

Lemma nth_map_default {A B : Type} (f : A → B) (l : list A) (i : nat)
    (d : A) (d' : B) :
  f d = d' → nth i (map f l) d' = f (nth i l d).
Proof. intros <-. apply map_nth. Qed.

Lemma nth_map_lt {A B : Type} (f : A → B) (l : list A) (i : nat)
    (d : A) (d' : B) :
  i < length l → nth i (map f l) d' = f (nth i l d).
Proof.
  intros Hi. rewrite (nth_indep _ d' (f d)) by (by rewrite length_map).
  apply map_nth.
Qed.

Lemma nrows_mat_build n c f : nrows (mat_build n c f) = n.
Proof. unfold nrows, mat_build. simpl. by rewrite length_map, length_seq. Qed.

Lemma entry_build (n c : nat) (f : nat → nat → float) (i j : nat) :
  i < n → j < c → entry (mat_build n c f) i j = f i j.
Proof.
  intros Hi Hj. unfold entry, mat_build. simpl.
  rewrite (nth_map_seq (fun i => map (fun j => f i j) (seq 0 c))) by done.
  by rewrite nth_map_seq.
Qed.

(** An entry of a quotient [x / delta] for a freshly computed [x]. *)
Lemma entry_div_build (ops : float_ops) (n c : nat) (f : nat → nat → float)
    (delta : number) (i j : nat) :
  i < n → j < c →
  entry (mat_div ops (mat_build n c f) delta) i j
  = fdiv ops (f i j) (to_float ops delta).
Proof.
  intros Hi Hj. unfold entry, mat_div, mat_build. simpl.
  rewrite (nth_map_lt _ _ _ []) by (by rewrite length_map, length_seq).
  rewrite (nth_map_seq (fun i => map (fun j => f i j) (seq 0 c))) by done.
  rewrite (nth_map_lt _ _ _ (Finite 0)) by (by rewrite length_map, length_seq).
  by rewrite nth_map_seq.
Qed.

Lemma bdim_Some (n m d : nat) :
  bdim n m = Some d →
  (n = d ∨ n = 1) ∧ (m = d ∨ m = 1) ∧ (d = n ∨ d = m).
Proof. unfold bdim. repeat case_decide; intros [= <-]; lia. Qed.

Lemma bdim_assign (n m d : nat) :
  bdim n m = Some d → d = n ∨ d = 1 → d = n.
Proof. intros H%bdim_Some. lia. Qed.

Lemma mat_sub_Ok (ops : float_ops) (x y d : mat) :
  mat_sub ops x y = Ok d →
  ∃ n c, bdim (nrows x) (nrows y) = Some n
         ∧ bdim (ncols x) (ncols y) = Some c
         ∧ d = mat_build n c
                 (fun i j => fsub ops (mat_get x i j) (mat_get y i j)).
Proof.
  unfold mat_sub.
  destruct (bdim (nrows x) (nrows y)) as [n|] eqn:En; [|discriminate].
  destruct (bdim (ncols x) (ncols y)) as [c|] eqn:Ec; [|discriminate].
  intros [= <-]. eauto.
Qed.

Lemma tail_cols_Ok (a : ndarray) (t : mat) :
  tail_cols a = Ok t →
  ∃ m, a = Arr2 m ∧ ncols t = ncols m - 1 ∧ nrows t = nrows m
       ∧ ∀ i j, entry t i j = entry m i (S j).
Proof.
  destruct a as [x|xs|m]; simpl; try discriminate.
  intros [= <-]. exists m. unfold nrows. simpl. rewrite length_map.
  do 3 (split; [done|]). intros i j. unfold entry. simpl.
  rewrite (nth_map_default _ _ _ []) by done.
  destruct (nth i (rows m) []) as [|e r]; simpl; [by destruct j | done].
Qed.

Lemma imap_nth {A B : Type} (f : nat → A → B) (l : list A) (i : nat)
    (a : A) (b : B) :
  i < length l → nth i (imap f l) b = f i (nth i l a).
Proof.
  revert f i. induction l as [|x l IH]; intros f i Hi; simpl in *; [lia|].
  destruct i as [|i]; [done|]. rewrite (IH (f ∘ S)) by lia. done.
Qed.

(** The array after [a[:,1:] = x]: same shape, first column kept, the
    other entries taken from [x]. *)
Lemma set_tail_cols_Ok (m x : mat) (a' : ndarray) :
  set_tail_cols (Arr2 m) x = Ok a' →
  ∃ out, a' = Arr2 out ∧ ncols out = ncols m ∧ nrows out = nrows m
    ∧ (nrows x = nrows m ∨ nrows x = 1)
    ∧ (ncols x = ncols m - 1 ∨ ncols x = 1)
    ∧ (mat_wf m → ∀ i, i < nrows m →
        (0 < ncols m → entry out i 0 = entry m i 0)
        ∧ ∀ j, S j < ncols m → entry out i (S j) = mat_get x i j).
Proof.
  unfold set_tail_cols. case_decide as Hshape; [|discriminate].
  intros [= <-]. eexists. split; [done|].
  unfold nrows at 1. simpl. rewrite length_imap. do 2 (split; [done|]).
  destruct Hshape as [Hn Hc]. do 2 (split; [done|]).
  intros Hwf i Hi.
  assert (Hrow : length (nth i (rows m) []) = ncols m).
  { unfold mat_wf in Hwf. rewrite Forall_forall in Hwf. apply Hwf.
    apply list_elem_of_In, nth_In. exact Hi. }
  unfold entry. simpl. rewrite (imap_nth _ _ _ []) by done.
  destruct (nth i (rows m) []) as [|e r] eqn:Er.
  - simpl in Hrow. split; [lia|]. intros j Hj. lia.
  - split; [done|]. intros j Hj.
    cbn [take app nth]. change (take 0 r) with (@nil float).
    cbn [app]. rewrite nth_map_seq by lia. done.
Qed.

(** ** The finite difference *)

(** Line 132 on one array: what a successful update has computed, entry
    by entry, from the two arrays. [lo] may have a single row, or a
    single column after column 0, which numpy repeats. *)
Lemma difference_Ok (ops : float_ops) (v : rvalue) (d0 : gmap pykey rvalue)
    (k : pykey) (delta : number) (v' : rvalue) :
  difference ops v d0 k delta = Ok v' →
  ∃ hi lo out,
    v = RArr (Arr2 hi) ∧ d0 !! k = Some (RArr (Arr2 lo))
    ∧ v' = RArr (Arr2 out)
    ∧ ncols out = ncols hi ∧ nrows out = nrows hi
    ∧ (nrows lo = nrows hi ∨ nrows lo = 1)
    ∧ (ncols lo - 1 = ncols hi - 1 ∨ ncols lo - 1 = 1)
    ∧ (mat_wf hi → ∀ i, i < nrows hi →
        (0 < ncols hi → entry out i 0 = entry hi i 0)
        ∧ ∀ j, S j < ncols hi →
            entry out i (S j)
            = fdiv ops
                (fsub ops (entry hi i (S j))
                   (entry lo (bidx (nrows lo) i)
                      (S (bidx (ncols lo - 1) j))))
                (to_float ops delta)).
Proof.
  unfold difference. destruct v as [a| |]; try discriminate.
  intros H. apply rbind_Ok_inv in H as (hi_t & Hhi & H).
  apply rbind_Ok_inv in H as (w & Hw & H).
  destruct w as [b| |]; try discriminate.
  apply rbind_Ok_inv in H as (lo_t & Hlo & H).
  apply rbind_Ok_inv in H as (d & Hd & H).
  apply rbind_Ok_inv in H as (a' & Ha' & [= <-]).
  destruct (tail_cols_Ok _ _ Hhi) as (hi & -> & Hhc & Hhr & Hhe).
  destruct (tail_cols_Ok _ _ Hlo) as (lo & -> & Hlc & Hlr & Hle).
  destruct (set_tail_cols_Ok _ _ _ Ha')
    as (out & -> & Hoc & Hor & Hsn & Hsc & Hent).
  apply mat_sub_Ok in Hd as (n & c & Hn & Hc & ->).
  assert (nrows (mat_div ops (mat_build n c
            (fun i j => fsub ops (mat_get hi_t i j) (mat_get lo_t i j)))
            delta) = n) as Hdn.
  { unfold nrows, mat_div, mat_build. simpl.
    by rewrite !length_map, length_seq. }
  rewrite Hdn in Hsn. cbn [ncols mat_div mat_build] in Hsc.
  assert (n = nrows hi) as ->
    by (rewrite <- Hhr; apply (bdim_assign _ _ _ Hn); lia).
  assert (c = ncols hi - 1) as ->
    by (rewrite <- Hhc; apply (bdim_assign _ _ _ Hc); lia).
  apply bdim_Some in Hn as (_ & Hln & _).
  apply bdim_Some in Hc as (_ & Hlcc & _).
  rewrite Hlr in Hln. rewrite Hlc in Hlcc.
  exists hi, lo, out.
  unfold getitem_key in Hw. destruct (d0 !! k) as [w|] eqn:Ek; [|discriminate].
  injection Hw as ->.
  repeat (split; [done|]).
  intros Hwf i Hi. destruct (Hent Hwf i Hi) as [H0 Hj]. split; [done|].
  intros j Hlt. rewrite Hj by done.
  rewrite mat_get_in_range by (rewrite ?Hdn; cbn [ncols mat_div mat_build]; lia).
  rewrite entry_div_build by lia. f_equal. f_equal.
  - rewrite mat_get_in_range by lia. apply Hhe.
  - unfold mat_get. rewrite Hle, Hlr, Hlc. done.
Qed.

Section Loop.
Variables (ops : float_ops) (d0 : gmap pykey rvalue) (delta : number).

Abbreviation loop_step := (derivative_step ops d0 delta).

Lemma loop_step_stdout (acc : gmap pykey rvalue) (v : rvalue) :
  loop_step (Ok acc) (stdout_key, v) = Ok acc.
Proof. reflexivity. Qed.

Lemma loop_step_other (acc : gmap pykey rvalue) (k : pykey) (v : rvalue) :
  k ≠ stdout_key →
  loop_step (Ok acc) (k, v)
  = rbind (difference ops v d0 k delta) (fun v' => Ok (<[k := v']> acc)).
Proof.
  intros Hne. unfold derivative_step. simpl. by rewrite decide_False.
Qed.

Lemma loop_raise (l : list (pykey * rvalue)) (e : exn) :
  foldl loop_step (Raise e) l = Raise e.
Proof. induction l as [|kv l IH]; [done|]. cbn [foldl]. apply IH. Qed.

Lemma loop_list_Ok (l : list (pykey * rvalue)) (acc d : gmap pykey rvalue) :
  NoDup l.*1 →
  (∀ k v, (k, v) ∈ l → acc !! k = Some v) →
  foldl loop_step (Ok acc) l = Ok d →
  dom d = dom acc
  ∧ (∀ k, k ∉ l.*1 → d !! k = acc !! k)
  ∧ (∀ k v, (k, v) ∈ l →
       if decide (k = stdout_key) then d !! k = Some v
       else ∃ v', difference ops v d0 k delta = Ok v' ∧ d !! k = Some v').
Proof.
  revert acc. induction l as [|[k v] l IH]; intros acc Hnd Hacc Hfold.
  - simpl in Hfold. injection Hfold as <-.
    split; [done|]. split; [done|]. intros k v Hin. by inversion Hin.
  - cbn [foldl] in Hfold. apply NoDup_cons in Hnd as [Hk Hnd].
    assert (acc !! k = Some v) as Hkv by (apply Hacc; left).
    destruct (decide (k = stdout_key)) as [->|Hne].
    + rewrite loop_step_stdout in Hfold.
      apply IH in Hfold as (Hdom & Hout & Hin); [|done|].
      2:{ intros k' v' H'. apply Hacc. by right. }
      split; [done|]. split.
      * intros k' Hk'. apply Hout. intros H. apply Hk'. by right.
      * intros k' v' [[= -> ->]|H']%elem_of_cons.
        -- rewrite decide_True by done. rewrite Hout by done. done.
        -- by apply Hin.
    + rewrite loop_step_other in Hfold by done.
      destruct (difference ops v d0 k delta) as [v'|e] eqn:Ed; simpl in Hfold.
      2:{ by rewrite loop_raise in Hfold. }
      apply IH in Hfold as (Hdom & Hout & Hin); [|done|].
      2:{ intros k' w H'. rewrite lookup_insert_ne; [apply Hacc; by right|].
          intros ->. apply Hk. apply list_elem_of_fmap. by exists (k', w). }
      split; [|split].
      * rewrite Hdom, dom_insert_L.
        assert (k ∈ dom acc) as Hkd by (apply elem_of_dom; eauto).
        apply set_eq. intros z. rewrite elem_of_union, elem_of_singleton.
        split; [intros [->|?]; done | by right].
      * intros k' Hk'. rewrite Hout.
        -- rewrite lookup_insert_ne; [done|]. intros ->. apply Hk'. by left.
        -- intros H. apply Hk'. by right.
      * intros k' w [[= -> ->]|H']%elem_of_cons.
        -- rewrite decide_False by done. exists v'. split; [done|].
           rewrite Hout by done. apply lookup_insert_eq.
        -- by apply Hin.
Qed.

(** The loop of lines 131-132 keeps the keys of [d1], leaves the entry
    ['stdout'] alone and replaces every other entry by its difference. *)
Lemma derivative_loop_Ok (d1 d : gmap pykey rvalue) :
  derivative_loop ops d1 d0 delta = Ok d →
  dom d = dom d1
  ∧ d !! stdout_key = d1 !! stdout_key
  ∧ ∀ k v, k ≠ stdout_key → d1 !! k = Some v →
      ∃ v', difference ops v d0 k delta = Ok v' ∧ d !! k = Some v'.
Proof.
  intros H. apply loop_list_Ok in H as (Hdom & Hout & Hin).
  - split; [done|]. split.
    + destruct (d1 !! stdout_key) as [s|] eqn:E.
      * apply elem_of_map_to_list in E. specialize (Hin _ _ E).
        by rewrite decide_True in Hin.
      * rewrite Hout; [done|]. intros [[k v] [Hk Hkv]]%list_elem_of_fmap.
        simpl in Hk. subst k. apply elem_of_map_to_list in Hkv. congruence.
    + intros k v Hne Hk. apply elem_of_map_to_list in Hk.
      specialize (Hin _ _ Hk). by rewrite decide_False in Hin.
  - apply NoDup_fst_map_to_list.
  - intros k v. apply elem_of_map_to_list.
Qed.
End Loop.

Section Derivative.
Variable ops : float_ops.
Variable call : gmap string pyval → res (gmap pykey rvalue).

(** [derivative] on a numeric parameter [x] and a numeric step [dl]: the
    first call is made at [x + dl/2], the second at [(x + dl/2) - dl],
    and [params] is left at the second dictionary once the first call has
    returned. *)
Lemma derivative_unfold (dparam : string) (params : gmap string pyval)
    (x dl : number) :
  params !! dparam = Some (PNum x) →
  derivative ops call dparam params (Some dl) =
    let hi := <[dparam := PNum (py_add ops x (half ops dl))]> params in
    let lo :=
      <[dparam := PNum (py_sub ops (py_add ops x (half ops dl)) dl)]> params in
    match call hi with
    | Raise e => (hi, Raise e)
    | Ok d1 =>
        (lo,
         d0 ←r call lo;
         d ←r derivative_loop ops d1 d0 dl;
         s0 ←r getitem_key d0 stdout_key;
         s1 ←r getitem_key d stdout_key;
         Ok (<[stdout_key := RPair s0 s1]> d))
    end.
Proof.
  intros Hx. unfold derivative, iadd, isub, getitem, as_number.
  rewrite Hx. simpl.
  destruct (call _) as [d1|e]; [|done].
  rewrite lookup_insert_eq. simpl.
  by rewrite insert_insert_eq.
Qed.

(** A call that returns had a numeric parameter and a numeric step. *)
Lemma derivative_Ok_inputs (dparam : string) (params : gmap string pyval)
    (delta : option number) (r : gmap pykey rvalue) :
  (derivative ops call dparam params delta).2 = Ok r →
  ∃ x dl, params !! dparam = Some (PNum x) ∧ delta = Some dl.
Proof.
  unfold derivative, iadd, getitem, as_number.
  destruct (params !! dparam) as [[s|x]|]; simpl;
    destruct delta as [dl|]; simpl; try discriminate.
  eauto.
Qed.

(** C9 (amended): when [derivative] returns [r], the parameter was a
    number [x] and the step a number [dl]; the pipeline was run first at
    [x + dl/2] (giving [d1]) and then at [(x + dl/2) - dl] (giving [d0]),
    both in Python 2 arithmetic and on the caller's dictionary; [r] has
    the keys of [d1]; its ['stdout'] entry is the pair of both captured
    outputs, second run first; and every other entry is the array [hi] of
    [d1] with its shape and its column 0 unchanged and, in every other
    column [j], the entry [(hi[i][j] - lo[i][j]) / dl] of numpy, where a
    single row of [lo], or a single column of [lo] after column 0, is
    repeated. *)
Theorem derivative_centered_difference (dparam : string)
    (params : gmap string pyval) (delta : option number)
    (r : gmap pykey rvalue) :
  (derivative ops call dparam params delta).2 = Ok r →
  ∃ x dl d1 d0,
    params !! dparam = Some (PNum x) ∧ delta = Some dl
    ∧ call (<[dparam := PNum (py_add ops x (half ops dl))]> params) = Ok d1
    ∧ call (<[dparam := PNum (py_sub ops (py_add ops x (half ops dl)) dl)]>
              params) = Ok d0
    ∧ dom r = dom d1
    ∧ (∃ s0 s1, d0 !! stdout_key = Some s0 ∧ d1 !! stdout_key = Some s1
                ∧ r !! stdout_key = Some (RPair s0 s1))
    ∧ ∀ k v, k ≠ stdout_key → d1 !! k = Some v →
        ∃ hi lo out,
          v = RArr (Arr2 hi) ∧ d0 !! k = Some (RArr (Arr2 lo))
          ∧ r !! k = Some (RArr (Arr2 out))
          ∧ ncols out = ncols hi ∧ nrows out = nrows hi
          ∧ (nrows lo = nrows hi ∨ nrows lo = 1)
          ∧ (ncols lo - 1 = ncols hi - 1 ∨ ncols lo - 1 = 1)
          ∧ (mat_wf hi → ∀ i, i < nrows hi →
              (0 < ncols hi → entry out i 0 = entry hi i 0)
              ∧ ∀ j, S j < ncols hi →
                  entry out i (S j)
                  = fdiv ops
                      (fsub ops (entry hi i (S j))
                         (entry lo (bidx (nrows lo) i)
                            (S (bidx (ncols lo - 1) j))))
                      (to_float ops dl)).
Proof.
  intros H. destruct (derivative_Ok_inputs _ _ _ _ H) as (x & dl & Hx & ->).
  rewrite (derivative_unfold _ _ _ _ Hx) in H. cbv zeta in H.
  destruct (call (<[dparam := PNum (py_add ops x (half ops dl))]> params))
    as [d1|e] eqn:E1; [|discriminate].
  simpl in H.
  apply rbind_Ok_inv in H as (d0 & E0 & H).
  apply rbind_Ok_inv in H as (d & Hloop & H).
  apply rbind_Ok_inv in H as (s0 & Hs0 & H).
  apply rbind_Ok_inv in H as (s1 & Hs1 & [= <-]).
  apply derivative_loop_Ok in Hloop as (Hdom & Hstd & Hent).
  unfold getitem_key in Hs0, Hs1.
  destruct (d0 !! stdout_key) as [s0'|] eqn:Es0; [|discriminate].
  destruct (d !! stdout_key) as [s1'|] eqn:Es1; [|discriminate].
  injection Hs0 as ->. injection Hs1 as ->.
  exists x, dl, d1, d0. repeat (split; [done|]). split; [|split].
  - rewrite dom_insert_L, Hdom.
    assert (stdout_key ∈ dom d1) as Hin
      by (apply elem_of_dom; rewrite <- Hstd; eauto).
    apply set_eq. intros z. rewrite elem_of_union, elem_of_singleton.
    split; [intros [->|?]; done | by right].
  - exists s0, s1. split; [done|]. split; [by rewrite <- Hstd|].
    apply lookup_insert_eq.
  - intros k v Hne Hk. destruct (Hent k v Hne Hk) as (v' & Hdiff & Hv').
    apply difference_Ok in Hdiff
      as (hi & lo & out & -> & Hlo & -> & Hrest).
    exists hi, lo, out.
    repeat (split; [done|]). split; [|done].
    rewrite lookup_insert_ne; [done|]. congruence.
Qed.

(** C10 (amended): when [derivative] returns, the caller's [params] has
    been changed in place and not restored: the entry of [dparam] holds
    [(x + dl/2) - dl] for the original number [x] and the step [dl], in
    Python 2 arithmetic (the quotient [dl/2] of an int step is floored,
    floats round), and every other entry is as it was. *)
Theorem derivative_leaves_params_shifted (dparam : string)
    (params : gmap string pyval) (delta : option number)
    (r : gmap pykey rvalue) :
  (derivative ops call dparam params delta).2 = Ok r →
  ∃ x dl,
    params !! dparam = Some (PNum x) ∧ delta = Some dl
    ∧ (derivative ops call dparam params delta).1 !! dparam
      = Some (PNum (py_sub ops (py_add ops x (half ops dl)) dl))
    ∧ ∀ k, k ≠ dparam →
        (derivative ops call dparam params delta).1 !! k = params !! k.
Proof.
  intros H. destruct (derivative_Ok_inputs _ _ _ _ H) as (x & dl & Hx & ->).
  exists x, dl. do 2 (split; [done|]).
  rewrite (derivative_unfold _ _ _ _ Hx) in H |- *. cbv zeta in *.
  destruct (call (<[dparam := PNum (py_add ops x (half ops dl))]> params))
    as [d1|e]; [|discriminate].
  simpl. split; [apply lookup_insert_eq|].
  intros k Hk. by rewrite lookup_insert_ne.
Qed.
End Derivative.

(** C9 (as stated, refuted): the parameter is the int 1 and the step the
    int 1. Python 2 floors [1/2] to 0: the first run is made at [1 + 0 = 1]
    and the second at [1 - 1 = 0], as the standard outputs of the two
    runs report, where the claim has the second run at the original
    value less [step/2], which is 1 (and 1/2 in exact arithmetic). *)
Lemma int_step_runs_at_one_and_zero :
  ∃ r, (derivative exact_ops echo_call "x" int_params (Some (NInt 1))).2 = Ok r
       ∧ r !! stdout_key = Some (RPair (RStr "0") (RStr "1"))
       ∧ py_sub exact_ops (NInt 1) (half exact_ops (NInt 1)) = NInt 1.
Proof. eexists. vm_compute. repeat split. Qed.

(** C10 (as stated, refuted): the same call leaves [params['x']] at 0,
    not at the original value less [step/2]. *)
Lemma int_step_leaves_zero :
  int_params !! "x" = Some (PNum (NInt 1))
  ∧ (derivative exact_ops echo_call "x" int_params (Some (NInt 1))).1 !! "x"
    = Some (PNum (NInt 0))
  ∧ py_sub exact_ops (NInt 1) (half exact_ops (NInt 1)) = NInt 1.
Proof. vm_compute. repeat split. Qed.

Lemma derivative_centered_difference_witness :
  ∃ x dl d1 d0,
    linear_params !! "ombh2" = Some (PNum x) ∧ Some (NInt 2) = Some dl
    ∧ linear_call
        (<["ombh2" := PNum (py_add exact_ops x (half exact_ops dl))]>
           linear_params) = Ok d1
    ∧ linear_call
        (<["ombh2" := PNum (py_sub exact_ops
                              (py_add exact_ops x (half exact_ops dl)) dl)]>
           linear_params) = Ok d0
    ∧ dom linear_result = dom d1
    ∧ (∃ s0 s1, d0 !! stdout_key = Some s0 ∧ d1 !! stdout_key = Some s1
                ∧ linear_result !! stdout_key = Some (RPair s0 s1))
    ∧ ∀ k v, k ≠ stdout_key → d1 !! k = Some v →
        ∃ hi lo out,
          v = RArr (Arr2 hi) ∧ d0 !! k = Some (RArr (Arr2 lo))
          ∧ linear_result !! k = Some (RArr (Arr2 out))
          ∧ ncols out = ncols hi ∧ nrows out = nrows hi
          ∧ (nrows lo = nrows hi ∨ nrows lo = 1)
          ∧ (ncols lo - 1 = ncols hi - 1 ∨ ncols lo - 1 = 1)
          ∧ (mat_wf hi → ∀ i, i < nrows hi →
              (0 < ncols hi → entry out i 0 = entry hi i 0)
              ∧ ∀ j, S j < ncols hi →
                  entry out i (S j)
                  = fdiv exact_ops
                      (fsub exact_ops (entry hi i (S j))
                         (entry lo (bidx (nrows lo) i)
                            (S (bidx (ncols lo - 1) j))))
                      (to_float exact_ops dl)).
Proof.
  apply (derivative_centered_difference exact_ops linear_call "ombh2"
           linear_params (Some (NInt 2)) linear_result).
  vm_compute. reflexivity.
Defined.

Lemma derivative_leaves_params_shifted_witness :
  ∃ x dl,
    linear_params !! "ombh2" = Some (PNum x) ∧ Some (NInt 2) = Some dl
    ∧ (derivative exact_ops linear_call "ombh2" linear_params
         (Some (NInt 2))).1 !! "ombh2"
      = Some (PNum (py_sub exact_ops
                      (py_add exact_ops x (half exact_ops dl)) dl))
    ∧ ∀ k, k ≠ "ombh2" →
        (derivative exact_ops linear_call "ombh2" linear_params
           (Some (NInt 2))).1 !! k
        = linear_params !! k.
Proof.
  apply (derivative_leaves_params_shifted exact_ops linear_call "ombh2"
           linear_params (Some (NInt 2)) linear_result).
  vm_compute. reflexivity.
Defined.

(** ** The parser behind [_read_ini] *)





Lemma readlines_unterminated (l : list string) (x : string) :
  x ≠ "" → readlines_of (l ++ [x]) = l ++ [x].
Proof.
  intros Hx. unfold readlines_of. rewrite last_snoc. by destruct x.
Qed.










(** *** Lines of the form [key = value] *)


























(** ** Runs of [__call__] *)

(** *** Which fields a step touches *)

Lemma same_control_refl (s : state) : same_control s s.
Proof. by repeat split. Qed.

Lemma same_control_trans (s1 s2 s3 : state) :
  same_control s1 s2 → same_control s2 s3 → same_control s1 s3.
Proof.
  unfold same_control. intros H1 H2. destruct_and!. repeat split; congruence.
Qed.

Lemma set_fifo_control (s : state) (path : string) (f : fifo) :
  same_control s (set_fifo s path f).
Proof. by repeat split. Qed.

Lemma on_fifo_control (s : state) (path : string) (g : fifo → fifo) :
  same_control s (on_fifo s path g).
Proof. unfold on_fifo. destruct (fifos s !! path); by repeat split. Qed.

Lemma release_all_control (l : list (string * bool)) (s : state) :
  same_control s (foldl release_end s l).
Proof.
  revert s. induction l as [|e l IH]; intros s; simpl.
  - apply same_control_refl.
  - eapply same_control_trans; [|apply IH]. apply on_fifo_control.
Qed.

(** Case analysis of one step: every [match] that the hypothesis [H] still
    contains is split. *)
Ltac step_cases H :=
  repeat match type of H with
         | context [match ?x with _ => _ end] => destruct x eqn:?
         end;
  try discriminate H; try (injection H as <-).

Ltac use_on_fifo :=
  match goal with
  | |- context [on_fifo ?s ?a ?b] =>
      destruct (on_fifo_control s a b); destruct_and!
  end.

Lemma unlink_Raise (s : state) (path : string) (e : exn) :
  unlink s path = Raise e → e = OSError path.
Proof.
  unfold unlink. intros H.
  repeat match type of H with
         | context [match ?x with _ => _ end] => destruct x eqn:?
         end; congruence.
Qed.

(** Projections of an updated state. *)
Ltac state_simpl :=
  cbn [main wp ro proc ro_started read_any result files fifos p paramfile
       outs with_main with_wp with_ro with_proc with_ro_started
       with_read_any with_result with_files with_fifos set_fifo
       cpc prog exit_status held received printed
       with_cpc with_prog with_held with_received with_printed] in *.

Section Run.
Variable loadtxt : string → option ndarray.

Lemma run_schedule_reachable (sch : list tid) (s s' : state) :
  run_schedule loadtxt sch s = Some s' → reachable loadtxt s s'.
Proof.
  revert s. induction sch as [|t sch IH]; intros s H; simpl in H.
  - injection H as <-. apply rtc_refl.
  - destruct (thread_step loadtxt t s) as [s1|] eqn:E; [|discriminate].
    eapply rtc_l; [by exists t | by apply IH].
Qed.

(** Invariants are shown step by step. *)
Lemma reachable_invariant (P : state → Prop) (s0 : state) :
  P s0 →
  (∀ s s' t, P s → thread_step loadtxt t s = Some s' → P s') →
  ∀ s, reachable loadtxt s0 s → P s.
Proof.
  intros H0 Hstep s Hreach. induction Hreach as [|s1 s2 s3 [t Ht] _ IH];
    [done|]. apply IH. by apply (Hstep s1 s2 t).
Qed.

(** What [start] returns. *)
Lemma start_Ok mktemp defaults params program status s0 :
  start mktemp defaults params program status = Ok s0 →
  main s0 = MStartWriter ∧ wp s0 = WIdle ∧ ro s0 = RIdle
  ∧ cpc (proc s0) = CIdle ∧ ro_started s0 = false ∧ read_any s0 = false
  ∧ result s0 = ∅ ∧ files s0 = ∅
  ∧ outputfiles (call_params defaults params) = Ok (outs s0).
Proof.
  unfold start. intros H.
  apply rbind_Ok_inv in H as (o & Ho & H).
  apply rbind_Ok_inv in H as (pf & Hpf & H).
  apply rbind_Ok_inv in H as (fs & Hfs & [= <-]). simpl.
  rewrite Ho. repeat split.
Qed.

Lemma writer_step_frame (s s' : state) :
  writer_step s = Some s' →
  p s' = p s ∧ paramfile s' = paramfile s ∧ outs s' = outs s
  ∧ result s' = result s ∧ read_any s' = read_any s
  ∧ ro_started s' = ro_started s ∧ main s' = main s ∧ ro s' = ro s
  ∧ proc s' = proc s.
Proof.
  intros H. unfold writer_step, after_open in H. step_cases H; simpl.
  all: try (by repeat split).
  all: use_on_fifo; by repeat split.
Qed.

Lemma reader_step_frame (s s' : state) :
  reader_step loadtxt s = Some s' →
  files s' = files s ∧ p s' = p s ∧ paramfile s' = paramfile s
  ∧ outs s' = outs s ∧ main s' = main s ∧ wp s' = wp s ∧ proc s' = proc s.
Proof.
  intros H. unfold reader_step, after_open in H. step_cases H; simpl.
  all: try (by repeat split).
  all: use_on_fifo; by repeat split.
Qed.

Lemma child_frame_of_control (s s' : state) :
  same_control s s' → child_frame s s'.
Proof. unfold same_control, child_frame. intros H. destruct_and!. repeat split; congruence. Qed.

Lemma child_open_frame (s : state) (path : string) (w : bool) :
  child_frame s (child_open s path w)
  ∧ cpc (proc (child_open s path w)) ≠ CIdle
    ∨ child_open s path w = s.
Proof.
  unfold child_open. destruct (fifo_at s path); [|by right]. left.
  split; [by repeat split|]. simpl. unfold after_open.
  destruct w; simpl; case_match; done.
Qed.

Lemma child_close_frame (s : state) (path : string) (w : bool) :
  child_frame s (child_close s path w)
  ∧ cpc (proc (child_close s path w)) = cpc (proc s).
Proof.
  unfold child_close. case_match; [|by repeat split].
  unfold release_end. cbn [fst snd].
  pose proof (on_fifo_control s path (if w then close_write else close_read))
    as Hc.
  set (s1 := on_fifo s path (if w then close_write else close_read)) in *.
  unfold same_control in Hc. destruct_and!.
  unfold child_frame. simpl. repeat split; congruence.
Qed.

Lemma child_exit_frame (s : state) (st : Z) :
  child_frame s (child_exit s st)
  ∧ cpc (proc (child_exit s st)) = CExited st
  ∧ printed (proc (child_exit s st)) = printed (proc s).
Proof.
  unfold child_exit. pose proof (release_all_control (held (proc s)) s) as Hc.
  set (s1 := foldl release_end s (held (proc s))) in *.
  unfold same_control in Hc. destruct_and!.
  unfold child_frame. simpl. repeat split; congruence.
Qed.

Lemma child_frame_trans (s1 s2 s3 : state) :
  child_frame s1 s2 → child_frame s2 s3 → child_frame s1 s3.
Proof.
  unfold child_frame. intros H1 H2. destruct_and!. repeat split; congruence.
Qed.

Lemma child_step_frame (s s' : state) :
  child_step s = Some s' →
  child_frame s s' ∧ child_started s ∧ child_started s'
  ∧ ∀ st, cpc (proc s) ≠ CExited st.
Proof.
  intros H. unfold child_step in H. unfold child_started.
  destruct (cpc (proc s)) eqn:Hpc; try discriminate H.
  - (* running *)
    destruct (prog (proc s)) as [|a rest] eqn:Hprog.
    + injection H as <-.
      destruct (child_exit_frame s (exit_status (proc s))) as (Hf & Hx & _).
      rewrite Hx. done.
    + set (s1 := with_proc s (with_prog (proc s) rest)) in *.
      assert (child_frame s s1) as Hs1 by (by repeat split).
      assert (cpc (proc s1) = CRun) as Hpc1 by (simpl; done).
      assert (∀ s2, (child_frame s1 s2 ∧ cpc (proc s2) ≠ CIdle ∨ s2 = s1) →
                child_frame s s2 ∧ CRun ≠ CIdle ∧ cpc (proc s2) ≠ CIdle
                ∧ ∀ st, CRun ≠ CExited st) as Hfin.
      { intros s2 [[Hf Hc]| ->].
        - split; [by eapply child_frame_trans|done].
        - rewrite Hpc1. done. }
      destruct a; step_cases H; try (apply Hfin; by right).
      * apply Hfin, child_open_frame.
      * apply Hfin. left. split; [by repeat split | simpl; congruence].
      * apply Hfin. left.
        destruct (child_close_frame s1 (paramfile s) false) as [Hf Hc].
        rewrite Hc, Hpc1. done.
      * apply Hfin, child_open_frame.
      * apply Hfin. left.
        destruct (child_exit_frame s1 sigpipe) as (Hf & Hx & _).
        rewrite Hx. done.
      * apply Hfin. left. split; [by repeat split | simpl; congruence].
      * apply Hfin. left.
        destruct (child_close_frame s1 s0 true) as [Hf Hc].
        rewrite Hc, Hpc1. done.
      * apply Hfin. left. split; [by repeat split | simpl; congruence].
  - step_cases H. simpl. split; [by repeat split | done].
  - step_cases H. simpl. split; [by repeat split | done].
Qed.

Lemma unlink_frame (s s' : state) (path : string) :
  unlink s path = Ok s' →
  p s' = p s ∧ paramfile s' = paramfile s ∧ outs s' = outs s
  ∧ result s' = result s ∧ read_any s' = read_any s
  ∧ ro_started s' = ro_started s ∧ main s' = main s ∧ wp s' = wp s
  ∧ ro s' = ro s ∧ proc s' = proc s.
Proof.
  unfold unlink. intros H. step_cases H; by repeat split.
Qed.

(** *** The order of start-up *)

Lemma startup_inv_step (s s' : state) (t : tid) :
  startup_inv s → thread_step loadtxt t s = Some s' → startup_inv s'.
Proof.
  unfold startup_inv. intros (H1 & H2 & H3 & H4 & H5 & H6) Hstep.
  destruct t; cbn [thread_step] in Hstep.
  - (* main *)
    unfold main_step, after_open in Hstep.
    destruct (main s) eqn:Hm; step_cases Hstep; state_simpl;
      try match goal with
          | H : unlink _ _ = Ok _ |- _ =>
              apply unlink_frame in H; destruct_and!
          end;
      try use_on_fifo; state_simpl;
      repeat match goal with H : _ = _ |- _ => rewrite H in * end;
      try (intuition (try congruence); fail).
  - (* writeparams *)
    apply writer_step_frame in Hstep. destruct_and!.
    repeat match goal with H : _ = _ |- _ => rewrite H in * end. done.
  - (* readoutputs *)
    pose proof (reader_step_frame _ _ Hstep) as Hf. destruct_and!.
    unfold reader_step, after_open in Hstep.
    destruct (ro s) eqn:Hr; step_cases Hstep; state_simpl;
      try use_on_fifo; state_simpl;
      repeat match goal with H : _ = _ |- _ => rewrite H in * end;
      try (intuition (try congruence); fail).
  - (* the child *)
    apply child_step_frame in Hstep as (Hf & Hc & Hc' & _).
    unfold child_frame, child_started in *. destruct_and!.
    repeat match goal with H : _ = _ |- _ => rewrite H in * end.
    intuition congruence.
Qed.

Lemma startup_inv_start mktemp defaults params program status s0 :
  start mktemp defaults params program status = Ok s0 → startup_inv s0.
Proof.
  intros H. apply start_Ok in H as (Hm & Hw & Hr & Hc & Hs & _).
  unfold startup_inv. rewrite Hm, Hr, Hc, Hs. repeat split; done.
Qed.

(** C1 (amended): in every run, the child process is started only after
    the reader thread has set [ro_started]; the thread sets it in line 94,
    before its first [open] (line 96), so at the start of the child the
    reader thread has passed line 94, with nothing said about whether it
    has entered an [open]. *)
Theorem child_started_after_ready mktemp defaults params program status
    (s0 s : state) :
  start mktemp defaults params program status = Ok s0 →
  reachable loadtxt s0 s →
  child_started s →
  ro_started s = true ∧ ro s ≠ RIdle ∧ ro s ≠ RSet.
Proof.
  intros Hstart Hreach Hchild.
  assert (startup_inv s) as (H1 & H2 & H3 & H4 & H5 & H6).
  { clear Hchild. revert s Hreach. apply reachable_invariant.
    - by eapply startup_inv_start.
    - intros s1 s2 t. apply startup_inv_step. }
  unfold child_started in Hchild. specialize (H6 Hchild).
  split; [done|]. split.
  - intros Hr. specialize (H4 Hr). congruence.
  - intros Hr. destruct (H5 Hr). congruence.
Qed.
End Run.

(** C1 (as stated, refuted): a run in which the child process has been
    started, and has even ended, while the one reader thread has set
    [ro_started] and has not yet called [open] for its first channel: the
    signal does not wait for the reader to be blocked in [open]. *)
Lemma child_started_before_reader_opens :
  start counter_mktemp ∅ (switches "T" "F" "F" "F" "F") [] 0 = Ok quiet_start
  ∧ ∃ s, reachable digit_loadtxt quiet_start s
      ∧ ro_started s = true
      ∧ cpc (proc s) = CExited 0
      ∧ ro s = RLoop ["scalar_output_file"]
      ∧ ¬ reader_in_open s.
Proof.
  split; [vm_compute; reflexivity|].
  exists (after (run_schedule digit_loadtxt quiet_schedule quiet_start)).
  split.
  - apply (run_schedule_reachable _ quiet_schedule).
    vm_compute. reflexivity.
  - vm_compute. repeat split. tauto.
Qed.

Lemma child_started_after_ready_witness :
  let s := after (run_schedule digit_loadtxt quiet_schedule quiet_start) in
  ro_started s = true ∧ ro s ≠ RIdle ∧ ro s ≠ RSet.
Proof.
  apply (child_started_after_ready digit_loadtxt counter_mktemp ∅
           (switches "T" "F" "F" "F" "F") [] 0%Z quiet_start).
  - vm_compute. reflexivity.
  - apply (run_schedule_reachable _ quiet_schedule). vm_compute. reflexivity.
  - vm_compute. discriminate.
Defined.

(** C2 (code at the failing input): scalar and vector output are planned
    and the executable writes the scalar file only. In the run below the
    reader has read the scalar file ([read_any] is set) and is blocked in
    the [open] of the vector FIFO; the child has ended with status 0; the
    main thread has taken the branch of line 115 and waits in
    [ro_thread.join()]. Nobody can move: the call hangs, where the claim
    has the orchestrator release the reader and complete. *)
Theorem partial_skip_deadlock :
  start counter_mktemp ∅ (switches "T" "T" "F" "F" "F") partial_skip_program 0
    = Ok partial_skip_start
  ∧ ∃ s, reachable digit_loadtxt partial_skip_start s
      ∧ stuck digit_loadtxt s
      ∧ main s = MJoin
      ∧ read_any s = true
      ∧ cpc (proc s) = CExited 0
      ∧ ro s = RBlocked "/tmp/tmp1_vector_output_file" "vector_output_file"
                 0 [].
Proof.
  split; [vm_compute; reflexivity|].
  exists (after (run_schedule digit_loadtxt partial_skip_schedule
                   partial_skip_start)).
  split; [|split].
  - apply (run_schedule_reachable _ partial_skip_schedule).
    vm_compute. reflexivity.
  - intros []; vm_compute; reflexivity.
  - vm_compute. repeat split.
Qed.

(** *** Exit status and clean-up *)

Lemma fifo_at_Some (s : state) (path : string) (f : fifo) :
  fifo_at s path = Some f → fifos s !! path = Some f ∧ linked f = true.
Proof.
  unfold fifo_at. destruct (fifos s !! path) as [g|]; [|discriminate].
  destruct (linked g) eqn:E; [|discriminate]. intros [= <-]. done.
Qed.

Lemma linked_drop_if_unused (f : fifo) : linked (drop_if_unused f) = linked f.
Proof. unfold drop_if_unused. by case_decide. Qed.

Lemma linked_close_read (f : fifo) : linked (close_read f) = linked f.
Proof. unfold close_read. by rewrite linked_drop_if_unused. Qed.

Lemma linked_close_write (f : fifo) : linked (close_write f) = linked f.
Proof. unfold close_write. by rewrite linked_drop_if_unused. Qed.

Lemma pipes_kept_refl (s s' : state) : fifos s' = fifos s → pipes_kept s s'.
Proof. intros H path. by rewrite H. Qed.

Lemma pipes_kept_trans (s1 s2 s3 : state) :
  pipes_kept s1 s2 → pipes_kept s2 s3 → pipes_kept s1 s3.
Proof. intros H1 H2 path. by rewrite H2, H1. Qed.

Lemma pipes_kept_insert (s s' : state) (path : string) (f f' : fifo) :
  fifos s' = <[path := f']> (fifos s) →
  fifos s !! path = Some f → linked f' = linked f →
  pipes_kept s s'.
Proof.
  intros Hs' Hf Hl path'. rewrite Hs'.
  destruct (decide (path = path')) as [<-|Hne].
  - rewrite lookup_insert_eq, Hf. simpl. by rewrite Hl.
  - by rewrite lookup_insert_ne.
Qed.

Lemma pipes_kept_on_fifo (s s' : state) (path : string) (g : fifo → fifo) :
  fifos s' = fifos (on_fifo s path g) →
  (∀ f, linked (g f) = linked f) →
  pipes_kept s s'.
Proof.
  intros Hs' Hg. unfold on_fifo in Hs'.
  destruct (fifos s !! path) as [f|] eqn:Hf.
  - simpl in Hs'. eapply pipes_kept_insert; [exact Hs' | exact Hf | apply Hg].
  - by apply pipes_kept_refl.
Qed.

Lemma pipes_kept_release_end (s : state) (e : string * bool) :
  pipes_kept s (release_end s e).
Proof.
  unfold release_end. eapply pipes_kept_on_fifo; [done|].
  intros f. destruct e.2; [apply linked_close_write | apply linked_close_read].
Qed.

Lemma pipes_kept_release_all (l : list (string * bool)) (s : state) :
  pipes_kept s (foldl release_end s l).
Proof.
  revert s. induction l as [|e l IH]; intros s; simpl.
  - by apply pipes_kept_refl.
  - eapply pipes_kept_trans; [apply pipes_kept_release_end | apply IH].
Qed.

Lemma pipes_kept_dom (s s' : state) :
  pipes_kept s s' → dom (fifos s') = dom (fifos s).
Proof.
  intros H. apply set_eq. intros path. rewrite !elem_of_dom.
  specialize (H path).
  destruct (fifos s' !! path), (fifos s !! path); simpl in H;
    try discriminate; split; intros [? ?]; eauto; discriminate.
Qed.

Lemma pipes_kept_linked (s s' : state) :
  pipes_kept s s' → all_linked s → all_linked s'.
Proof.
  intros H Hall path f' Hf'. specialize (H path). rewrite Hf' in H.
  destruct (fifos s !! path) as [f|] eqn:Hf; [|discriminate].
  simpl in H. injection H as ->. by eapply Hall.
Qed.

(** Finishes a goal [pipes_kept s s'] for an explicit [s']. *)
Ltac solve_pipes :=
  repeat match goal with
         | H : fifo_at _ _ = Some _ |- _ => apply fifo_at_Some in H as [? ?]
         end;
  first
    [ apply pipes_kept_refl; reflexivity
    | eapply pipes_kept_insert; [reflexivity | eassumption | reflexivity]
    | eapply pipes_kept_insert; [reflexivity | eassumption | ];
      first [ simpl; congruence ]
    | eapply pipes_kept_on_fifo; [reflexivity | ]; intros;
      first [ apply linked_close_write | apply linked_close_read ] ].

Lemma writer_step_pipes (s s' : state) :
  writer_step s = Some s' → pipes_kept s s'.
Proof.
  intros H. unfold writer_step, after_open in H. step_cases H; solve_pipes.
Qed.

Lemma child_open_pipes (s : state) (path : string) (w : bool) :
  pipes_kept s (child_open s path w).
Proof.
  unfold child_open. destruct (fifo_at s path) eqn:E; [|by apply pipes_kept_refl].
  destruct w; solve_pipes.
Qed.

Lemma child_close_pipes (s : state) (path : string) (w : bool) :
  pipes_kept s (child_close s path w).
Proof.
  unfold child_close. case_match; [|by apply pipes_kept_refl].
  eapply pipes_kept_trans; [apply (pipes_kept_release_end s (path, w))|].
  by apply pipes_kept_refl.
Qed.

Lemma child_exit_pipes (s : state) (st : Z) : pipes_kept s (child_exit s st).
Proof.
  unfold child_exit.
  eapply pipes_kept_trans; [apply (pipes_kept_release_all (held (proc s)) s)|].
  by apply pipes_kept_refl.
Qed.

Lemma child_step_pipes (s s' : state) :
  child_step s = Some s' → pipes_kept s s'.
Proof.
  intros H. unfold child_step in H. step_cases H;
    match goal with
    | |- pipes_kept ?s (child_open ?s1 _ _) =>
        apply (pipes_kept_trans s s1); [by apply pipes_kept_refl|];
        apply child_open_pipes
    | |- pipes_kept ?s (child_close ?s1 _ _) =>
        apply (pipes_kept_trans s s1); [by apply pipes_kept_refl|];
        apply child_close_pipes
    | |- pipes_kept ?s (child_exit ?s1 _) =>
        apply (pipes_kept_trans s s1); [by apply pipes_kept_refl|];
        apply child_exit_pipes
    | _ => solve_pipes
    end.
Qed.

Lemma dom_insert_fifo (s : state) (path : string) (f f' : fifo) :
  fifo_at s path = Some f → dom (<[path := f']> (fifos s)) = dom (fifos s).
Proof.
  intros [Hf _]%fifo_at_Some. rewrite dom_insert_L.
  apply elem_of_dom_2 in Hf. set_solver.
Qed.

Lemma unlink_dom (s s' : state) (path : string) :
  unlink s path = Ok s' → dom (fifos s') = dom (fifos s).
Proof.
  unfold unlink. intros H. step_cases H; [|done].
  simpl. by eapply dom_insert_fifo.
Qed.

Lemma main_step_pipes (s s' : state) :
  main_step s = Some s' →
  (before_unlink (main s') → before_unlink (main s) ∧ pipes_kept s s')
  ∧ dom (fifos s') = dom (fifos s).
Proof.
  intros H. unfold main_step, after_open in H.
  destruct (main s) eqn:Hm; step_cases H; state_simpl;
    try match goal with
        | H : unlink _ _ = Ok _ |- _ =>
            pose proof (unlink_dom _ _ _ H);
            apply unlink_frame in H; destruct_and!
        end;
    try match goal with
        | H : unlink _ _ = Raise _ |- _ => apply unlink_Raise in H as ->
        end.
  all: split; [cbn [before_unlink]; try tauto | try done].
  all: try (intros _; split; [done|]; solve_pipes).
  all: try (apply pipes_kept_dom; solve_pipes).
  all: try (by eapply dom_insert_fifo).
  all: repeat match goal with H : _ = _ |- _ => rewrite H in * end;
       cbn [before_unlink]; try tauto.
Qed.
Section Cleanup.
Variable loadtxt : string → option ndarray.

Lemma reader_step_pipes (s s' : state) :
  reader_step loadtxt s = Some s' → pipes_kept s s'.
Proof.
  intros H. unfold reader_step, after_open in H. step_cases H; solve_pipes.
Qed.

Lemma linked_inv_step (s0 s s' : state) (t : tid) :
  linked_inv s0 s → thread_step loadtxt t s = Some s' → linked_inv s0 s'.
Proof.
  intros [Hdom Hall] Hstep. unfold linked_inv.
  assert (∀ s', main s' = main s → pipes_kept s s' → linked_inv s0 s')
    as Hkept.
  { intros s2 Hm Hk. split.
    - by rewrite (pipes_kept_dom _ _ Hk).
    - rewrite Hm. intros Hb. eapply pipes_kept_linked; eauto. }
  destruct t; cbn [thread_step] in Hstep.
  - apply main_step_pipes in Hstep as [Hb Hd]. split; [congruence|].
    intros Hb'. destruct (Hb Hb') as [Hbs Hk].
    eapply pipes_kept_linked; eauto.
  - apply Hkept.
    + by apply writer_step_frame in Hstep; destruct_and!.
    + by apply writer_step_pipes.
  - apply Hkept.
    + by apply reader_step_frame in Hstep; destruct_and!.
    + by apply reader_step_pipes.
  - apply Hkept.
    + apply child_step_frame in Hstep as [Hf _]. unfold child_frame in Hf.
      by destruct_and!.
    + by apply child_step_pipes.
Qed.

Lemma exit_inv_step (s s' : state) (t : tid) :
  exit_inv s → thread_step loadtxt t s = Some s' → exit_inv s'.
Proof.
  unfold exit_inv. intros Hinv Hstep.
  destruct t; cbn [thread_step] in Hstep.
  - unfold main_step, after_open in Hstep.
    destruct (main s) eqn:Hm; step_cases Hstep; state_simpl;
      try match goal with
          | H : unlink _ _ = Ok _ |- _ =>
              apply unlink_frame in H; destruct_and!
          end;
      try use_on_fifo; state_simpl;
      repeat match goal with H : _ = _ |- _ => rewrite H in * end;
      try done.
    all: match goal with
         | H : unlink _ _ = Raise _ |- _ => apply unlink_Raise in H as ->
         end; done.
  - apply writer_step_frame in Hstep. destruct_and!.
    repeat match goal with H : _ = _ |- _ => rewrite H in * end. done.
  - apply reader_step_frame in Hstep. destruct_and!.
    repeat match goal with H : _ = _ |- _ => rewrite H in * end. done.
  - apply child_step_frame in Hstep as (Hf & Hc & Hc' & Hx).
    unfold child_frame, child_started in *. destruct_and!.
    match goal with H : main s' = main s |- _ => rewrite H end.
    destruct (main s) as [| | | | | | | | | | | | |e]; try done;
      try (exfalso; by eapply Hx).
    destruct e; try done; try (exfalso; by eapply Hx).
    destruct Hinv as (_ & Hinv & _). exfalso. by eapply Hx.
Qed.
Lemma mkfifo_linked (fs fs' : gmap string fifo) (path : string) :
  mkfifo fs path = Ok fs' →
  (∀ q f, fs !! q = Some f → linked f = true) →
  ∀ q f, fs' !! q = Some f → linked f = true.
Proof.
  unfold mkfifo. destruct (fs !! path) eqn:E; [discriminate|].
  intros [= <-] Hall q f. destruct (decide (path = q)) as [<-|Hne].
  - rewrite lookup_insert_eq. by intros [= <-].
  - rewrite lookup_insert_ne by done. apply Hall.
Qed.

Lemma make_fifos_linked mktemp (ks : list string) (p0 : gmap string string)
    (fs : gmap string fifo) (pf : gmap string string * gmap string fifo) :
  make_fifos mktemp ks p0 fs = Ok pf →
  (∀ q f, fs !! q = Some f → linked f = true) →
  ∀ q f, pf.2 !! q = Some f → linked f = true.
Proof.
  revert p0 fs. induction ks as [|k ks IH]; intros p0 fs H Hall.
  - injection H as <-. exact Hall.
  - cbn [make_fifos] in H. apply rbind_Ok_inv in H as (fs' & Hmk & H).
    eapply IH; [exact H|]. by eapply mkfifo_linked.
Qed.

Lemma linked_inv_start mktemp defaults params program status s0 :
  start mktemp defaults params program status = Ok s0 → linked_inv s0 s0.
Proof.
  intros H. split; [done|]. intros _. unfold start in H.
  apply rbind_Ok_inv in H as (o & Ho & H).
  apply rbind_Ok_inv in H as (pf & Hpf & H).
  apply rbind_Ok_inv in H as (fs & Hfs & [= <-]).
  unfold all_linked. cbn [fifos].
  eapply mkfifo_linked; [exact Hfs|].
  eapply make_fifos_linked; [exact Hpf|]. intros q f Hq.
  by rewrite lookup_empty in Hq.
Qed.

Lemma exit_inv_start mktemp defaults params program status s0 :
  start mktemp defaults params program status = Ok s0 → exit_inv s0.
Proof.
  intros H. apply start_Ok in H as (Hm & _ & _ & Hc & _).
  unfold exit_inv. by rewrite Hm.
Qed.

(** C3 (amended): in every state of a run in which the child process has
    ended with a status [st] other than 0, the main thread is either still
    in [check_output] with [CalledProcessError st output] as its only
    step, or has raised exactly that exception, which carries the status
    and the captured output; the call has not returned a result; and
    every FIFO made for the run is still linked in the file system:
    nothing is unlinked on this path. *)
Theorem process_failure_raises_without_cleanup mktemp defaults params
    program status (s0 s : state) (st : Z) :
  start mktemp defaults params program status = Ok s0 →
  reachable loadtxt s0 s →
  cpc (proc s) = CExited st → st ≠ 0%Z →
  (main s = MCommunicate
     ∧ main_step s
       = Some (with_main s
                 (MRaised (CalledProcessError st (printed (proc s)))))
   ∨ main s = MRaised (CalledProcessError st (printed (proc s))))
  ∧ main s ≠ MReturned
  ∧ ∀ path, path ∈ dom (fifos s0) → is_Some (fifo_at s path).
Proof.
  intros Hstart Hreach Hexit Hst.
  assert (exit_inv s ∧ linked_inv s0 s) as [Hx [Hdom Hlinked]].
  { clear Hexit. revert s Hreach. apply reachable_invariant.
    - split; [by eapply exit_inv_start | by eapply linked_inv_start].
    - intros s1 s2 t [H1 H2] Hstep. split.
      + by eapply exit_inv_step.
      + by eapply linked_inv_step. }
  unfold exit_inv in Hx. rewrite Hexit in Hx.
  assert (main s = MCommunicate
          ∨ main s = MRaised (CalledProcessError st (printed (proc s))))
    as Hmain.
  { destruct (main s) as [| | | | | | | | | | | | |e]; try congruence;
      [by left|].
    destruct e; try congruence.
    destruct Hx as (_ & [= <-] & ->). by right. }
  split; [|split].
  - destruct Hmain as [Hm|Hm]; [left|by right]. split; [done|].
    unfold main_step. rewrite Hm, Hexit. by rewrite decide_False.
  - destruct Hmain as [Hm|Hm]; rewrite Hm; discriminate.
  - intros path Hpath. rewrite <- Hdom in Hpath.
    apply elem_of_dom in Hpath as [f Hf]. unfold fifo_at. rewrite Hf.
    assert (before_unlink (main s)) as Hb
      by (destruct Hmain as [Hm|Hm]; rewrite Hm; exact I).
    rewrite (Hlinked Hb path f Hf). eauto.
Qed.
End Cleanup.

(** C3 (as stated, refuted): the executable ends with status 3. The main
    thread has raised [CalledProcessError] and will not move again, and
    both FIFOs of the run, the parameter file and the scalar output file,
    are still linked: the failure path unlinks nothing. *)
Lemma failed_process_leaves_fifos :
  start counter_mktemp ∅ (switches "T" "F" "F" "F" "F") [APrint "oops"] 3
    = Ok failing_start
  ∧ ∃ s, reachable digit_loadtxt failing_start s
      ∧ main s = MRaised (CalledProcessError 3 "oops")
      ∧ main_step s = None
      ∧ paramfile s = "/tmp/tmp1_param"
      ∧ p s !! "scalar_output_file" = Some "/tmp/tmp0_scalar_output_file"
      ∧ is_Some (fifo_at s "/tmp/tmp1_param")
      ∧ is_Some (fifo_at s "/tmp/tmp0_scalar_output_file").
Proof.
  split; [vm_compute; reflexivity|].
  exists (after (run_schedule digit_loadtxt failing_schedule failing_start)).
  split.
  - apply (run_schedule_reachable _ failing_schedule). vm_compute. reflexivity.
  - vm_compute. repeat split; eauto.
Qed.

Lemma process_failure_raises_without_cleanup_witness :
  let s := after (run_schedule digit_loadtxt failing_schedule failing_start) in
  (main s = MCommunicate
     ∧ main_step s
       = Some (with_main s
                 (MRaised (CalledProcessError 3 (printed (proc s)))))
   ∨ main s = MRaised (CalledProcessError 3 (printed (proc s))))
  ∧ main s ≠ MReturned
  ∧ ∀ path, path ∈ dom (fifos failing_start) → is_Some (fifo_at s path).
Proof.
  apply (process_failure_raises_without_cleanup digit_loadtxt counter_mktemp
           ∅ (switches "T" "F" "F" "F" "F") [APrint "oops"] 3%Z
           failing_start).
  - vm_compute. reflexivity.
  - apply (run_schedule_reachable _ failing_schedule). vm_compute. reflexivity.
  - vm_compute. reflexivity.
  - lia.
Defined.

(** C8 (code at the failing input): lensing is the only output, so the
    lensed channel is planned twice (line 77) and the reader thread reads
    the lensed FIFO twice. In the run below the first read has stored a
    table under ['lensed'] and the second finds the bytes [x y], which do
    not decode. The exception is swallowed, and the entry ['lensed'] of
    the failed channel is still in [result], where the claim has the
    entry of a channel that fails to decode absent. *)
Theorem failed_read_keeps_lensed_entry :
  start counter_mktemp ∅ (switches "F" "F" "F" "T" "F") lensed_program 0
    = Ok lensed_start
  ∧ outs lensed_start = ["lensed_output_file"; "lensed_output_file"]
  ∧ digit_loadtxt "x y" = None
  ∧ ∃ s s',
      reachable digit_loadtxt lensed_start s
      ∧ ro s = RRead "/tmp/tmp1_lensed_output_file" "lensed_output_file" []
      ∧ buffer <$> (fifos s !! "/tmp/tmp1_lensed_output_file") = Some "x y"
      ∧ reader_step digit_loadtxt s = Some s'
      ∧ ro s' = RClose "/tmp/tmp1_lensed_output_file" "lensed_output_file" []
      ∧ result s' !! Some "lensed" = Some (RArr (Arr0 (Finite 1))).
Proof.
  split; [vm_compute; reflexivity|].
  split; [vm_compute; reflexivity|].
  split; [vm_compute; reflexivity|].
  exists (after (run_schedule digit_loadtxt lensed_schedule lensed_start)).
  exists (after (run_schedule digit_loadtxt (lensed_schedule ++ [TReader])
                   lensed_start)).
  split.
  - apply (run_schedule_reachable _ lensed_schedule). vm_compute. reflexivity.
  - vm_compute. repeat split.
Qed.

(** * Further properties *)

(** ** The parameter dictionary and the output plan *)

(** X1: line 71 removes from the merged dictionary exactly the nine keys
    of [_output_files], whichever mapping brought them; every other key
    is as merged. *)
Theorem reserved_keys_stripped (defaults params : gmap string string)
    (k : string) :
  call_params defaults params !! k =
    if bool_decide
         (k ∈ [ "scalar_output_file"; "vector_output_file";
                "tensor_output_file"; "total_output_file:";
                "lensed_output_file"; "lens_potential_output_file";
                "lensed_total_output_file"; "transfer_filename(1)";
                "transfer_matterpower(1)" ])
    then None
    else merge defaults params !! k.
Proof.
  rewrite call_params_lookup. unfold merge. rewrite dict_update_lookup.
  assert (dom _output_files
          = list_to_set
              [ "scalar_output_file"; "vector_output_file";
                "tensor_output_file"; "total_output_file:";
                "lensed_output_file"; "lens_potential_output_file";
                "lensed_total_output_file"; "transfer_filename(1)";
                "transfer_matterpower(1)" ]) as ->.
  { unfold _output_files. rewrite dom_list_to_map_L. done. }
  destruct (decide _) as [Hin|Hin]; rewrite elem_of_list_to_set in Hin.
  - by rewrite bool_decide_eq_true_2.
  - by rewrite bool_decide_eq_false_2.
Qed.

Lemma outputfiles_Ok (p : gmap string string) (l : list string) :
  outputfiles p = Ok l ↔
  ∃ s v t le tr,
    p !! "get_scalar_cls" = Some s ∧ p !! "get_vector_cls" = Some v
    ∧ p !! "get_tensor_cls" = Some t ∧ p !! "do_lensing" = Some le
    ∧ p !! "get_transfer" = Some tr
    ∧ l = planned s ["scalar_output_file"]
          ++ planned v ["vector_output_file"]
          ++ planned t ["tensor_output_file"]
          ++ planned le ["lensed_output_file"; "lensed_output_file"]
          ++ planned tr ["transfer_filename(1)"; "transfer_matterpower(1)"].
Proof.
  unfold outputfiles, switch, getitem, planned. split.
  - intros H.
    destruct (p !! "get_scalar_cls") as [s|]; [|discriminate].
    destruct (p !! "get_vector_cls") as [v|]; [|discriminate].
    destruct (p !! "get_tensor_cls") as [t|]; [|discriminate].
    destruct (p !! "do_lensing") as [le|]; [|discriminate].
    destruct (p !! "get_transfer") as [tr|]; [|discriminate].
    exists s, v, t, le, tr. repeat split; try done.
    cbn [rbind] in H. injection H as <-.
    repeat case_decide; by rewrite ?app_nil_r, <- ?app_assoc.
  - intros (s & v & t & le & tr & -> & -> & -> & -> & -> & ->).
    cbn [rbind]. f_equal.
    repeat case_decide; by rewrite ?app_nil_r, <- ?app_assoc.
Qed.

(** X2: for a dictionary that holds the five switches, the plan lists, in
    the fixed order scalar, vector, tensor, lensed, transfer, the
    channels of the switches whose value is exactly [T]; the lensed
    channel is listed twice. *)
Theorem outputfiles_plan (p : gmap string string) (s v t le tr : string) :
  p !! "get_scalar_cls" = Some s → p !! "get_vector_cls" = Some v →
  p !! "get_tensor_cls" = Some t → p !! "do_lensing" = Some le →
  p !! "get_transfer" = Some tr →
  outputfiles p
  = Ok (planned s ["scalar_output_file"]
        ++ planned v ["vector_output_file"]
        ++ planned t ["tensor_output_file"]
        ++ planned le ["lensed_output_file"; "lensed_output_file"]
        ++ planned tr ["transfer_filename(1)"; "transfer_matterpower(1)"]).
Proof.
  intros Hs Hv Ht Hl Htr. apply outputfiles_Ok.
  exists s, v, t, le, tr. by repeat split.
Qed.

Lemma outputfiles_plan_witness :
  outputfiles (switches "T" "t" "F" "True" "T")
  = Ok (planned "T" ["scalar_output_file"]
        ++ planned "t" ["vector_output_file"]
        ++ planned "F" ["tensor_output_file"]
        ++ planned "True" ["lensed_output_file"; "lensed_output_file"]
        ++ planned "T" ["transfer_filename(1)"; "transfer_matterpower(1)"]).
Proof.
  apply (outputfiles_plan (switches "T" "t" "F" "True" "T")); reflexivity.
Defined.

(** X3: the plan is made exactly when the dictionary holds the five
    switches; otherwise lines 74-78 raise [KeyError] for the first switch
    that is missing. *)
Theorem outputfiles_needs_switches (p : gmap string string) :
  (∃ l, outputfiles p = Ok l)
  ∧ Forall (fun k => is_Some (p !! k)) switch_keys
  ∨ ∃ before k after,
      switch_keys = before ++ k :: after
      ∧ Forall (fun k' => is_Some (p !! k')) before
      ∧ p !! k = None
      ∧ outputfiles p = Raise (KeyError (Some k)).
Proof.
  unfold outputfiles, switch, getitem, switch_keys.
  destruct (p !! "get_scalar_cls") as [s|] eqn:Es; cycle 1.
  { right. exists [], "get_scalar_cls", (tail switch_keys). by repeat split. }
  destruct (p !! "get_vector_cls") as [v|] eqn:Ev; cycle 1.
  { right. exists ["get_scalar_cls"], "get_vector_cls",
      ["get_tensor_cls"; "do_lensing"; "get_transfer"].
    repeat split; [|done]. repeat constructor; by rewrite ?Es. }
  destruct (p !! "get_tensor_cls") as [t|] eqn:Et; cycle 1.
  { right. exists ["get_scalar_cls"; "get_vector_cls"], "get_tensor_cls",
      ["do_lensing"; "get_transfer"].
    repeat split; [|done]. repeat constructor; by rewrite ?Es, ?Ev. }
  destruct (p !! "do_lensing") as [le|] eqn:El; cycle 1.
  { right. exists ["get_scalar_cls"; "get_vector_cls"; "get_tensor_cls"],
      "do_lensing", ["get_transfer"].
    repeat split; [|done]. repeat constructor; by rewrite ?Es, ?Ev, ?Et. }
  destruct (p !! "get_transfer") as [tr|] eqn:Etr; cycle 1.
  { right. exists ["get_scalar_cls"; "get_vector_cls"; "get_tensor_cls";
                   "do_lensing"], "get_transfer", [].
    repeat split; [|done].
    repeat constructor; by rewrite ?Es, ?Ev, ?Et, ?El. }
  left. split; [cbn [rbind]; eauto|].
  repeat constructor; by rewrite ?Es, ?Ev, ?Et, ?El, ?Etr.
Qed.

Lemma outputfiles_elements (p : gmap string string) (l : list string)
    (k : string) :
  outputfiles p = Ok l → k ∈ l →
  k ∈ [ "scalar_output_file"; "vector_output_file"; "tensor_output_file";
        "lensed_output_file"; "transfer_filename(1)";
        "transfer_matterpower(1)" ].
Proof.
  intros (s & v & t & le & tr & _ & _ & _ & _ & _ & ->)%outputfiles_Ok.
  unfold planned. repeat case_decide; set_solver.
Qed.

(** X4: every planned channel has a result name in [_output_files], and
    the name is a string other than [stdout]: the lookup in line 98 never
    fails for a planned channel, and no table is stored under the key of
    the captured output or under [None]. *)
Theorem planned_channels_have_names (p : gmap string string)
    (l : list string) (k : string) :
  outputfiles p = Ok l → k ∈ l →
  ∃ name, _output_files !! k = Some (Some name) ∧ name ≠ "stdout".
Proof.
  intros Hl Hk. pose proof (outputfiles_elements p l k Hl Hk) as Hin.
  repeat (apply elem_of_cons in Hin as [->|Hin]);
    try (eexists; split; [vm_compute; reflexivity | done]).
  by apply not_elem_of_nil in Hin.
Qed.

Lemma planned_channels_have_names_witness :
  ∃ name, _output_files !! "transfer_filename(1)" = Some (Some name)
          ∧ name ≠ "stdout".
Proof.
  apply (planned_channels_have_names (switches "F" "F" "F" "F" "T")
           ["transfer_filename(1)"; "transfer_matterpower(1)"]).
  - vm_compute. reflexivity.
  - apply elem_of_cons. by left.
Defined.
